(** * A shallow embedding of the sudogo solver

    The Go program keeps a 9x9 board of cells, each a solved digit together
    with a 9-bit mask of the digits still possible, prunes the masks with
    two propagation rules and searches with an iteratively deepened,
    width-limited backtracking.  The packages [cell], [coord] and [cqueue]
    and the [main] package are embedded below, one module each, followed by
    the properties proved about them. *)

From Stdlib Require Import ZArith Lia Bool List Sorting.Sorted.
From stdpp Require Import base tactics option list.
Import ListNotations.

Local Open Scope Z_scope.

(** ** Fixed-width integers of the Go code *)

(** [uint8] arithmetic: the result modulo 2^8. *)
Definition wrap_u8 (z : Z) : Z := z mod 256.

(** [uint16] arithmetic: the result modulo 2^16. *)
Definition wrap_u16 (z : Z) : Z := z mod 65536.

(** [int8] arithmetic (the type [dim] of package coord): two's complement. *)
Definition wrap_i8 (z : Z) : Z := (z + 128) mod 256 - 128.

(** [int] arithmetic on a 64-bit platform: two's complement. *)
Definition max_int : Z := 9223372036854775807.
Definition min_int : Z := -9223372036854775808.
Definition wrap_int (z : Z) : Z := (z + 9223372036854775808) mod 18446744073709551616 - 9223372036854775808.

(** [x << s] at type uint16 with a non-negative shift count [s]; a count of
    16 or more shifts every bit out. *)
Definition shl_u16 (x s : Z) : Z := wrap_u16 (Z.shiftl x s).

(** [^x] at type uint16. *)
Definition not_u16 (x : Z) : Z := Z.lxor x 65535.

(** [bits.TrailingZeros16] of math/bits: the number of trailing zero bits,
    16 for the argument 0. *)
Fixpoint trailing_zeros (n : nat) (k : Z) (x : Z) : Z :=
  match n with
  | O => k
  | S n' => if Z.testbit x k then k else trailing_zeros n' (k + 1) x
  end.

Definition TrailingZeros16 (x : Z) : Z := trailing_zeros 16 0 x.

(** [bits.OnesCount16] of math/bits: the number of one bits. *)
Fixpoint ones_count (n : nat) (k : Z) (x : Z) : Z :=
  match n with
  | O => 0
  | S n' => Z.b2z (Z.testbit x k) + ones_count n' (k + 1) x
  end.

Definition OnesCount16 (x : Z) : Z := ones_count 16 0 x.

(** ** Driving an iterator

    Every loop over an iterator in the program has the shape
    [for i.Next() { ... i.Value() ... }].  [drive_fuel] runs that protocol
    and collects the values, returning the iterator as the loop leaves it;
    [yields] is the same loop as a relation, which has a derivation only
    when [Next] does answer false. *)
Section Drive.
Context {I V : Type}.
Variable next : I -> bool * I.
Variable value : I -> V.

Fixpoint drive_fuel (fuel : nat) (i : I) : list V * I :=
  match fuel with
  | O => ([], i)
  | S fuel' =>
      let '(more, i') := next i in
      if more
      then let '(l, i'') := drive_fuel fuel' i' in (value i' :: l, i'')
      else ([], i')
  end.

Inductive yields : I -> list V -> I -> Prop :=
| yields_done i i' :
    next i = (false, i') -> yields i [] i'
| yields_more i i' l i'' :
    next i = (true, i') -> yields i' l i'' -> yields i (value i' :: l) i''.

(** Whether the loop is left, within the fuel, by [Next] answering false. *)
Fixpoint ended (fuel : nat) (i : I) : bool :=
  match fuel with
  | O => false
  | S fuel' => let '(more, i') := next i in if more then ended fuel' i' else true
  end.

End Drive.

(** ** Package cell *)
Module cell.

(** [ValT] is uint8 and [canT] is uint16. *)
Record Cell : Type := mkCell { Value : Z; can : Z }.

Definition everything : Z := 511.
Definition none : Z := 0.
Definition empty : Z := 0.

Record possibilityIterator : Type := mkIter { it_can : Z; init : bool }.

Definition New (v : Z) : Cell := {| Value := v; can := 0 |}.

Definition IsEmpty (c : Cell) : bool := Value c =? empty.

Definition Possibilities (c : Cell) : possibilityIterator :=
  {| it_can := can c; init := false |}.

Definition Next (p : possibilityIterator) : bool * possibilityIterator :=
  if init p
  then let can' := Z.land (it_can p) (wrap_u16 (it_can p - 1)) in
       (negb (can' =? 0), {| it_can := can'; init := true |})
  else (true, {| it_can := it_can p; init := true |}).

Definition Value_it (p : possibilityIterator) : Z :=
  wrap_u8 (TrailingZeros16 (it_can p) + 1).

Definition SetAll (c : Cell) : Cell := {| Value := Value c; can := everything |}.

Definition Drop (c : Cell) (v : Z) : Cell :=
  {| Value := Value c;
     can := Z.land (can c) (not_u16 (shl_u16 1 (wrap_u8 (v - 1)))) |}.

Definition IsSingle (c : Cell) : bool :=
  negb (can c =? none) && (Z.land (can c) (wrap_u16 (can c - 1)) =? none).

Definition FirstPossibility (c : Cell) : Z :=
  wrap_u8 (TrailingZeros16 (can c) + 1).

Definition IsPossible (c : Cell) (v : Z) : bool :=
  negb (Z.land (can c) (shl_u16 1 (wrap_u8 (v - 1))) =? none).

Definition PossibilityCount (c : Cell) : Z := OnesCount16 (can c).

(** The values a [for i.Next() { v := i.Value() }] loop sees.  Each
    [Next] after the first clears a bit of a 16-bit mask, so 17 calls
    are the most that can answer true. *)
Definition possibilities (c : Cell) : list Z :=
  fst (drive_fuel Next Value_it 18 (Possibilities c)).

End cell.

(** ** Package coord *)
Module coord.

(** [dim] is int8. *)
Record Coord : Type := mkCoord { X : Z; Y : Z }.

Definition Ctoi (c : Coord) : Z := wrap_i8 (Y c * 9 + X c).

(** The interface [Iterator]: [Next] advances and tells whether a value
    is there, [Value] reads it, [Reset] rewinds. *)
Class Iterator (I V : Type) : Type := {
  Next : I -> bool * I;
  Value : I -> V;
  Reset : I -> I
}.

Record composed (A B : Type) : Type :=
  mkComposed { a : A; b : B; bRun : bool }.
Arguments mkComposed {A B} _ _ _.
Arguments a {A B} _.
Arguments b {A B} _.
Arguments bRun {A B} _.

Record allIterator : Type := mkAll { all_i : Z }.
Record rowIterator : Type := mkRow { row_base : Coord; row_i : Z }.
Record columnIterator : Type := mkColumn { column_base : Coord; column_i : Z }.
Record boxIterator : Type :=
  mkBox { box_base : Coord; box_i : Z; coords : list Coord }.
Record allRowsIterator : Type := mkAllRows { allRows_i : Z }.
Record allColumnsIterator : Type := mkAllColumns { allColumns_i : Z }.
Record allBoxesIterator : Type := mkAllBoxes { allBoxes_i : Z }.

Definition Composed {A B : Type} (x : A) (y : B) : composed A B :=
  {| a := x; b := y; bRun := false |}.

Definition All : allIterator := {| all_i := -1 |}.

Definition Row (c : Coord) : rowIterator := {| row_base := c; row_i := -1 |}.

Definition Column (c : Coord) : columnIterator :=
  {| column_base := c; column_i := -1 |}.

(** The nested loops of [Box], [x] outside and [y] inside, written out. *)
Definition Box (c : Coord) : boxIterator :=
  let sx := wrap_i8 (X c - Z.rem (X c) 3) in
  let sy := wrap_i8 (Y c - Z.rem (Y c) 3) in
  {| box_base := c; box_i := -1;
     coords :=
       flat_map (fun x => map (fun y => mkCoord (wrap_i8 (x + sx)) (wrap_i8 (y + sy)))
                             [0; 1; 2]) [0; 1; 2] |}.

Definition AllRows : allRowsIterator := {| allRows_i := -1 |}.
Definition AllColumns : allColumnsIterator := {| allColumns_i := -1 |}.
Definition AllBoxes : allBoxesIterator := {| allBoxes_i := -1 |}.

#[export] Instance composed_Iterator {A B V : Type}
  `{Iterator A V} `{Iterator B V} : Iterator (composed A B) V := {
  Next i :=
    if bRun i
    then let '(r, b') := Next (b i) in (r, {| a := a i; b := b'; bRun := true |})
    else
      let '(r, a') := Next (a i) in
      if negb r
      then let '(r', b') := Next (b i) in
           (r', {| a := a'; b := b'; bRun := true |})
      else (true, {| a := a'; b := b i; bRun := false |});
  Value i := if bRun i then Value (b i) else Value (a i);
  Reset i := {| a := Reset (a i); b := Reset (b i); bRun := false |}
}.

#[export] Instance allIterator_Iterator : Iterator allIterator Coord := {
  Next i := let j := wrap_i8 (all_i i + 1) in (j <? 81, {| all_i := j |});
  Value i := mkCoord (Z.rem (all_i i) 9) (Z.quot (all_i i) 9);
  Reset i := {| all_i := -1 |}
}.

#[export] Instance rowIterator_Iterator : Iterator rowIterator Coord := {
  Next i :=
    let j := wrap_i8 (row_i i + 1) in
    (j <? 9, {| row_base := row_base i; row_i := j |});
  Value i := mkCoord (row_i i) (Y (row_base i));
  Reset i := {| row_base := row_base i; row_i := -1 |}
}.

#[export] Instance columnIterator_Iterator : Iterator columnIterator Coord := {
  Next i :=
    let j := wrap_i8 (column_i i + 1) in
    (j <? 9, {| column_base := column_base i; column_i := j |});
  Value i := mkCoord (X (column_base i)) (column_i i);
  Reset i := {| column_base := column_base i; column_i := -1 |}
}.

(** [coords[i]] outside 0..8 panics in Go; no loop of the program reads
    [Value] before a [Next] that answered true. *)
#[export] Instance boxIterator_Iterator : Iterator boxIterator Coord := {
  Next i :=
    let j := wrap_i8 (box_i i + 1) in
    (j <? 9, {| box_base := box_base i; box_i := j; coords := coords i |});
  Value i := nth (Z.to_nat (box_i i)) (coords i) (mkCoord 0 0);
  Reset i := {| box_base := box_base i; box_i := -1; coords := coords i |}
}.

(** The values of the iterators of iterators are boxed as the interface
    [Iterator] in Go; the three dynamic types that occur are the cases of
    [group]. *)
Inductive group : Type :=
| GRow (r : rowIterator)
| GColumn (c : columnIterator)
| GBox (x : boxIterator).

#[export] Instance group_Iterator : Iterator group Coord := {
  Next g :=
    match g with
    | GRow r => let '(m, r') := Next r in (m, GRow r')
    | GColumn c => let '(m, c') := Next c in (m, GColumn c')
    | GBox x => let '(m, x') := Next x in (m, GBox x')
    end;
  Value g :=
    match g with
    | GRow r => Value r
    | GColumn c => Value c
    | GBox x => Value x
    end;
  Reset g :=
    match g with
    | GRow r => GRow (Reset r)
    | GColumn c => GColumn (Reset c)
    | GBox x => GBox (Reset x)
    end
}.

#[export] Instance allRowsIterator_Iterator : Iterator allRowsIterator group := {
  Next i := let j := wrap_i8 (allRows_i i + 1) in (j <? 9, {| allRows_i := j |});
  Value i := GRow (Row (mkCoord 0 (allRows_i i)));
  Reset i := {| allRows_i := -1 |}
}.

#[export] Instance allColumnsIterator_Iterator :
  Iterator allColumnsIterator group := {
  Next i :=
    let j := wrap_i8 (allColumns_i i + 1) in (j <? 9, {| allColumns_i := j |});
  Value i := GColumn (Column (mkCoord (allColumns_i i) 0));
  Reset i := {| allColumns_i := -1 |}
}.

#[export] Instance allBoxesIterator_Iterator : Iterator allBoxesIterator group := {
  Next i :=
    let j := wrap_i8 (allBoxes_i i + 1) in (j <? 9, {| allBoxes_i := j |});
  Value i :=
    let bx := Z.rem (allBoxes_i i) 3 in
    let by_ := Z.quot (allBoxes_i i) 3 in
    GBox (Box (mkCoord (wrap_i8 (bx * 3)) (wrap_i8 (by_ * 3))));
  Reset i := {| allBoxes_i := -1 |}
}.

(** The loop [for i.Next() { ... }]: the values seen and the iterator
    afterwards.  The iterators the program builds yield at most 81
    values; [ended] tells whether the loop was left by [Next] answering
    false. *)
Definition loop {I V : Type} `{Iterator I V} (i : I) : list V * I :=
  drive_fuel Next Value 82 i.

Definition elements {I V : Type} `{Iterator I V} (i : I) : list V :=
  fst (loop i).

End coord.

(** ** Package cqueue *)
Module cqueue.

Record PrioCoord : Type := mkPrio { Count : Z; Coord : coord.Coord }.

#[export] Instance PrioCoord_inhabited : Inhabited PrioCoord :=
  populate {| Count := 0; Coord := coord.mkCoord 0 0 |}.

(** [type Queue []PrioCoord]. *)
Abbreviation Queue := (list PrioCoord).

Definition New : Queue := [].

Definition Len (q : Queue) : Z := Z.of_nat (length q).

Definition Less (q : Queue) (i j : Z) : bool :=
  Count (q !!! Z.to_nat i) <? Count (q !!! Z.to_nat j).

Definition Swap (q : Queue) (i j : Z) : Queue :=
  let qi := q !!! Z.to_nat i in
  let qj := q !!! Z.to_nat j in
  <[Z.to_nat j := qi]> (<[Z.to_nat i := qj]> q).

Definition Push (q : Queue) (x : PrioCoord) : Queue := q ++ [x].

Definition Pop (q : Queue) : PrioCoord * Queue :=
  let n := Len q in
  (q !!! Z.to_nat (n - 1), take (Z.to_nat (n - 1)) q).

End cqueue.

(** ** container/heap of the Go standard library

    [tries] and [try] go through [heap.Push] and [heap.Pop]; their bodies
    are those of the standard library, over the [Len], [Less], [Swap],
    [Push] and [Pop] of [cqueue.Queue]. *)
Module heap.
Import cqueue.

(** [up]: the index [j] at least halves at every round, so the length of
    the queue bounds the rounds. *)
Fixpoint up_fuel (fuel : nat) (h : Queue) (j : Z) : Queue :=
  match fuel with
  | O => h
  | S fuel' =>
      let i := Z.quot (j - 1) 2 in
      if (i =? j) || negb (Less h j i) then h
      else up_fuel fuel' (Swap h i j) i
  end.

Definition up (h : Queue) (j : Z) : Queue := up_fuel (length h) h j.

(** [down]: the index [i] grows at every round and stays below [n]. *)
Fixpoint down_fuel (fuel : nat) (h : Queue) (i n : Z) : Queue :=
  match fuel with
  | O => h
  | S fuel' =>
      let j1 := wrap_int (2 * i + 1) in
      if (j1 >=? n) || (j1 <? 0) then h
      else
        let j2 := wrap_int (j1 + 1) in
        let j := if (j2 <? n) && Less h j2 j1 then j2 else j1 in
        if negb (Less h j i) then h
        else down_fuel fuel' (Swap h i j) j n
  end.

Definition down (h : Queue) (i0 n : Z) : Queue := down_fuel (length h) h i0 n.

Definition Push (h : Queue) (x : PrioCoord) : Queue :=
  let h := cqueue.Push h x in
  up h (Len h - 1).

Definition Pop (h : Queue) : PrioCoord * Queue :=
  let n := Len h - 1 in
  let h := Swap h 0 n in
  let h := down h 0 n in
  cqueue.Pop h.

End heap.

(** ** Package main *)
Module sudoku.
Import cell coord.

#[export] Instance Cell_inhabited : Inhabited Cell := populate (mkCell 0 0).

(** [type board [9 * 9]cell.Cell]. *)
Abbreviation board := (list Cell).

(** The zero value [board{}]. *)
Definition zero_board : board := replicate 81 (mkCell 0 0).

(** [b.at(c)] is a pointer into the array: [at_] reads through it and
    [store] writes through it.  An index outside 0..80 panics in Go; the
    coordinates the iterators yield and those of [main] are inside. *)
Definition at_ (b : board) (c : Coord) : Cell := b !!! Z.to_nat (Ctoi c).

Definition store (b : board) (c : Coord) (x : Cell) : board :=
  <[Z.to_nat (Ctoi c) := x]> b.

Definition allPossible (b : board) : board :=
  fold_left (fun b c => store b c (SetAll (at_ b c))) (elements All) b.

Definition fill (b : board) (c : Coord) (v : Z) : board :=
  let b := store b c (New v) in
  let i := Composed (Composed (Row c) (Column c)) (Box c) in
  fold_left (fun b c => store b c (Drop (at_ b c) v)) (elements i) b.

(** The body of the loop of [singlePossible], on the flag [r] and the
    board. *)
Definition singlePossible_step (s : bool * board) (co : Coord) : bool * board :=
  let '(r, b) := s in
  let c := at_ b co in
  if IsSingle c then (true, fill b co (FirstPossibility c)) else (r, b).

Definition singlePossible (b : board) : bool * board :=
  fold_left singlePossible_step (elements All) (false, b).

(** The digits [for j := 1; j <= 9; j++] runs through. *)
Definition digits : list Z := [1; 2; 3; 4; 5; 6; 7; 8; 9].

(** First inner loop of [onlyPlace]: [counts] after the group [r]. *)
Definition tally (b : board) (r : list Coord) : list Z :=
  fold_left
    (fun counts co =>
       let c := at_ b co in
       fold_left
         (fun counts j =>
            if IsPossible c j
            then <[Z.to_nat (j - 1) := counts !!! Z.to_nat (j - 1) + 1]> counts
            else counts)
         digits counts)
    r (replicate 9 0).

(** Second inner loop of [onlyPlace]: [Some] board when it returns true
    from inside the loop. *)
Fixpoint place_digit (b : board) (counts : list Z) (co : Coord) (js : list Z)
  : option board :=
  match js with
  | [] => None
  | j :: js' =>
      if IsPossible (at_ b co) j && (counts !!! Z.to_nat (j - 1) =? 1)
      then Some (fill b co j)
      else place_digit b counts co js'
  end.

Fixpoint place (b : board) (counts : list Z) (r : list Coord) : option board :=
  match r with
  | [] => None
  | co :: r' =>
      match place_digit b counts co digits with
      | Some b' => Some b'
      | None => place b counts r'
      end
  end.

Fixpoint onlyPlace_groups (b : board) (gs : list group) : bool * board :=
  match gs with
  | [] => (false, b)
  | r :: gs' =>
      let '(cs, r) := loop r in
      let counts := tally b cs in
      let r := Reset r in
      match place b counts (elements r) with
      | Some b' => (true, b')
      | None => onlyPlace_groups b gs'
      end
  end.

Definition onlyPlace (b : board) : bool * board :=
  onlyPlace_groups b (elements (Composed (Composed AllRows AllColumns) AllBoxes)).

Definition solved (b : board) : bool :=
  forallb (fun c => negb (IsEmpty (at_ b c))) (elements All).

Definition contradicts (b : board) : bool :=
  existsb (fun co => let c := at_ b co in
                     (cell.Value c =? 0) && (PossibilityCount c =? 0))
          (elements All).

Definition tries (b : board) (maxWidth : Z) : cqueue.Queue :=
  fold_left
    (fun q c =>
       let p := PossibilityCount (at_ b c) in
       if (0 <? p) && (p <=? maxWidth)
       then heap.Push q {| cqueue.Count := p; cqueue.Coord := c |}
       else q)
    (elements All) cqueue.New.

(** The total number of candidate bits on the board. *)
Definition candidate_bits (b : board) : Z :=
  fold_right (fun c n => PossibilityCount c + n) 0 b.

(** The loop [for b.singlePossible() || b.onlyPlace() {}]; [None] when
    the fuel runs out before both rules answer false. *)
Fixpoint propagate_fuel (fuel : nat) (b : board) : option board :=
  match fuel with
  | O => None
  | S fuel' =>
      let '(r1, b1) := singlePossible b in
      if r1 then propagate_fuel fuel' b1
      else
        let '(r2, b2) := onlyPlace b1 in
        if r2 then propagate_fuel fuel' b2 else Some b2
  end.

(** Every round that goes on removes a candidate bit, so one round more
    than there are bits is enough ([propagate_terminates]). *)
Definition propagate (b : board) : option board :=
  propagate_fuel (S (Z.to_nat (candidate_bits b))) b.

Section Search.
(** The recursive call [bb.solve(depth+1, maxDepth, maxWidth)]. *)
Variable solve_rec : board -> Z -> Z -> Z -> option (bool * board).
Variable b : board.
Variables depth maxDepth maxWidth : Z.

(** The loop over the candidates of the cell at [c]: [Some (Some bb)]
    when a clone [bb] was solved, [Some None] when every candidate
    failed. *)
Fixpoint try_candidates (c : Coord) (vs : list Z) : option (option board) :=
  match vs with
  | [] => Some None
  | v :: vs' =>
      let bb := b in
      let bb := fill bb c v in
      match solve_rec bb (wrap_int (depth + 1)) maxDepth maxWidth with
      | None => None
      | Some (true, bb') => Some (Some bb')
      | Some (false, _) => try_candidates c vs'
      end
  end.

(** The loop [for q := b.tries(maxWidth); q.Len() > 0; { ... }]; every
    round pops one entry, so the length of the queue bounds the
    rounds. *)
Fixpoint try_queue (fuel : nat) (q : cqueue.Queue) : option (bool * board) :=
  if cqueue.Len q >? 0 then
    match fuel with
    | O => None
    | S fuel' =>
        let '(x, q') := heap.Pop q in
        let c := cqueue.Coord x in
        match try_candidates c (possibilities (at_ b c)) with
        | None => None
        | Some (Some bb) => Some (true, bb)
        | Some None => try_queue fuel' q'
        end
    end
  else Some (false, b).

Definition try_with : option (bool * board) :=
  let q := tries b maxWidth in
  try_queue (length q) q.
End Search.

(** [solve]; the fuel bounds the depth of the recursion through [try]. *)
Fixpoint solve_fuel (fuel : nat) (b : board) (depth maxDepth maxWidth : Z)
  : option (bool * board) :=
  match fuel with
  | O => None
  | S fuel' =>
      if depth >=? maxDepth then Some (false, b)
      else
        match propagate b with
        | None => None
        | Some b =>
            if solved b then Some (true, b)
            else if contradicts b then Some (false, b)
            else try_with (solve_fuel fuel') b depth maxDepth maxWidth
        end
  end.

(** The recursion is at most [maxDepth - depth] calls deep
    ([solve_terminates]). *)
Definition solve (b : board) (depth maxDepth maxWidth : Z) : option (bool * board) :=
  solve_fuel (S (Z.to_nat (maxDepth - depth))) b depth maxDepth maxWidth.

(** [try], whose recursive calls are calls of [solve]. *)
Definition try_ (b : board) (depth maxDepth maxWidth : Z) : option (bool * board) :=
  try_with solve b depth maxDepth maxWidth.

(** The loop of [iterate] from a given [maxDepth]; the fuel bounds the
    number of attempts, of which the program has no bound. *)
Fixpoint iterate_from (fuel : nat) (maxDepth : Z) (b : board) : option board :=
  match fuel with
  | O => None
  | S fuel' =>
      match solve b 0 maxDepth (Z.max (Z.quot maxDepth 3) 2) with
      | None => None
      | Some (true, b') => Some b'
      | Some (false, b') => iterate_from fuel' (wrap_int (maxDepth + 1)) b'
      end
  end.

Definition iterate (fuel : nat) (b : board) : option board :=
  iterate_from fuel 3 b.

(** The givens [main] fills in, in its order. *)
Definition givens : list (Coord * Z) :=
  [ (mkCoord 0 0, 8); (mkCoord 2 1, 3); (mkCoord 3 1, 6); (mkCoord 1 2, 7);
    (mkCoord 4 2, 9); (mkCoord 6 2, 2); (mkCoord 1 3, 5); (mkCoord 5 3, 7);
    (mkCoord 4 4, 4); (mkCoord 5 4, 5); (mkCoord 6 4, 7); (mkCoord 3 5, 1);
    (mkCoord 7 5, 3); (mkCoord 2 6, 1); (mkCoord 7 6, 6); (mkCoord 8 6, 8);
    (mkCoord 2 7, 8); (mkCoord 3 7, 5); (mkCoord 7 7, 1); (mkCoord 1 8, 9);
    (mkCoord 6 8, 4) ].

(** The board of [main] before [b.iterate()]. *)
Definition main_board : board :=
  fold_left (fun b '(c, v) => fill b c v) givens (allPossible zero_board).

End sudoku.

(** * Vocabulary of the properties *)

Import cell coord sudoku.

#[global] Existing Instance cqueue.PrioCoord_inhabited.

(** The integers [k], [k + 1], ... [k + n - 1]. *)
Fixpoint zrange (n : nat) (k : Z) : list Z :=
  match n with
  | O => []
  | S n' => k :: zrange n' (k + 1)
  end.

Definition valid (c : Coord) : Prop := 0 <= X c < 9 /\ 0 <= Y c < 9.

#[global] Instance valid_dec c : Decision (valid c).
Proof. unfold valid. apply _. Defined.

#[global] Instance Coord_eq_dec : EqDecision Coord.
Proof. solve_decision. Defined.

Definition same_row (c d : Coord) : Prop := Y c = Y d.
Definition same_column (c d : Coord) : Prop := X c = X d.
Definition same_box (c d : Coord) : Prop :=
  X c / 3 = X d / 3 /\ Y c / 3 = Y d / 3.

(** [d] shares the row, the column or the box of [c]. *)
Definition peer (c d : Coord) : Prop :=
  same_row c d \/ same_column c d \/ same_box c d.

#[global] Instance peer_dec c d : Decision (peer c d).
Proof. unfold peer, same_row, same_column, same_box. apply _. Defined.

(** The iterator [fill] runs through. *)
Definition fill_iter (c : Coord) :=
  Composed (Composed (Row c) (Column c)) (Box c).

(** The fields of a cell are a uint8 and a uint16. *)
Definition wf_cell (x : Cell) : Prop :=
  0 <= cell.Value x < 256 /\ 0 <= can x < 65536.

#[global] Instance wf_cell_dec x : Decision (wf_cell x).
Proof. unfold wf_cell. apply _. Defined.

(** The mask [^(1 << (v - 1))] of [Drop] for the nine digits. *)
Definition drop_mask (v : Z) : Z := not_u16 (shl_u16 1 (wrap_u8 (v - 1))).

(** A board is an array of 81 well-formed cells. *)
Definition wf_board (b : board) : Prop :=
  length b = 81%nat /\ Forall wf_cell b.

#[global] Instance wf_board_dec b : Decision (wf_board b).
Proof. unfold wf_board. apply _. Defined.

(** The loop of [fill]: [v] is dropped at every coordinate of [l]. *)
Definition drop_at (v : Z) (l : list Coord) (b : board) : board :=
  fold_left (fun b c => store b c (Drop (at_ b c) v)) l b.

(** A cell that carries a digit and no candidate. *)
Definition solved_cell (x : Cell) : Prop := cell.Value x <> 0 /\ can x = 0.

(** Between [b] and [b'] a cell that had candidates was filled in. *)
Definition filled (b b' : board) : Prop :=
  exists co, valid co /\ can (at_ b co) <> 0 /\ solved_cell (at_ b' co).

(** The iterator [onlyPlace] runs through, and the coordinates its second
    inner loop sees in a group. *)
Definition groups_iter := Composed (Composed AllRows AllColumns) AllBoxes.

Definition group_coords (g : group) : list Coord :=
  elements (Reset (snd (loop g))).

(** The entries [tries] pushes, in the order of the pushes: one for every
    cell whose number of candidates is from 1 to [maxWidth]. *)
Definition entries (b : board) (maxWidth : Z) : list cqueue.PrioCoord :=
  omap (fun c =>
          let p := PossibilityCount (at_ b c) in
          if (0 <? p) && (p <=? maxWidth)
          then Some {| cqueue.Count := p; cqueue.Coord := c |}
          else None)
       (elements All).

(** What holds of every entry of the queue of [tries]. *)
Definition entry_ok (b : board) (maxWidth : Z) (e : cqueue.PrioCoord) : Prop :=
  valid (cqueue.Coord e) /\
  cqueue.Count e = PossibilityCount (at_ b (cqueue.Coord e)) /\
  1 <= cqueue.Count e <= maxWidth.

(** An unsolved cell with no candidate left. *)
Definition dead_cell (x : Cell) : Prop := cell.Value x = 0 /\ can x = 0.

(** The invariant of cells: a cell that carries a digit has no candidate. *)
Definition cell_invariant (x : Cell) : Prop := cell.Value x <> 0 -> can x = 0.

#[global] Instance cell_invariant_dec x : Decision (cell_invariant x).
Proof. unfold cell_invariant. apply _. Defined.

(** The board [main] starts from: [board{}] after [allPossible]. *)
Definition initial_board : board := allPossible zero_board.

(** The boards the operations of the program lead to from the initial
    board. *)
Inductive reachable : board -> Prop :=
| reach_initial : reachable initial_board
| reach_fill b c v :
    reachable b -> valid c -> 0 <= v < 256 -> reachable (fill b c v)
| reach_singlePossible b r b' :
    reachable b -> singlePossible b = (r, b') -> reachable b'
| reach_onlyPlace b r b' :
    reachable b -> onlyPlace b = (r, b') -> reachable b'
| reach_solve b depth maxDepth maxWidth r b' :
    reachable b -> solve b depth maxDepth maxWidth = Some (r, b') -> reachable b'
| reach_iterate b fuel b' :
    reachable b -> iterate fuel b = Some b' -> reachable b'.

(** The loop of [iterate] in the words of the specification:
    [iterate_run maxDepth n b b'] when, started with [maxDepth] on [b], the
    first [n - 1] calls of [solve] fail, each followed by one more unit of
    [maxDepth], and the [n]-th succeeds and leaves [b']. *)
Inductive iterate_run : Z -> nat -> board -> board -> Prop :=
| run_success maxDepth b b' :
    solve b 0 maxDepth (Z.max (maxDepth ÷ 3) 2) = Some (true, b') ->
    iterate_run maxDepth 1 b b'
| run_retry maxDepth n b b1 b' :
    solve b 0 maxDepth (Z.max (maxDepth ÷ 3) 2) = Some (false, b1) ->
    iterate_run (maxDepth + 1) n b1 b' ->
    iterate_run maxDepth (S n) b b'.

(** A board with the digits 1 to 8 in the first eight cells of the top
    row, which leaves 9 as the only candidate of the ninth; and what
    [solve] leaves of it with the budget (0, 1, 2). *)
Definition row_board : board :=
  fold_left (fun b '(c, v) => fill b c v)
    [ (mkCoord 0 0, 1); (mkCoord 1 0, 2); (mkCoord 2 0, 3); (mkCoord 3 0, 4);
      (mkCoord 4 0, 5); (mkCoord 5 0, 6); (mkCoord 6 0, 7); (mkCoord 7 0, 8) ]
    initial_board.

Definition row_board_after : board :=
  match solve row_board 0 1 2 with
  | Some (_, b) => b
  | None => []
  end.

(** The heap order of [container/heap] on the first [n] entries of the
    queue: the count of an entry is not below the count of its parent. *)
Definition count_at (h : cqueue.Queue) (k : Z) : Z :=
  cqueue.Count (h !!! Z.to_nat k).

Definition parent (k : Z) : Z := (k - 1) ÷ 2.

Definition heap_ordered (h : cqueue.Queue) (n : Z) : Prop :=
  forall k, 0 < k < n -> count_at h (parent k) <= count_at h k.

(** The order while [up] is at the index [e]: every entry but [e] is in
    order with its parent, and the children of [e] with its parent. *)
Definition up_inv (h : cqueue.Queue) (e : Z) : Prop :=
  (forall k, 0 < k < cqueue.Len h -> k <> e ->
             count_at h (parent k) <= count_at h k) /\
  (forall k, 0 < k < cqueue.Len h -> parent k = e -> 0 < e ->
             count_at h (parent e) <= count_at h k).

(** The order while [down] is at the index [e]: every entry but the
    children of [e] is in order with its parent, and the children of [e]
    with its parent. *)
Definition down_inv (h : cqueue.Queue) (n e : Z) : Prop :=
  (forall k, 0 < k < n -> parent k <> e ->
             count_at h (parent k) <= count_at h k) /\
  (forall k, 0 < k < n -> parent k = e -> 0 < e ->
             count_at h (parent e) <= count_at h k).

(** The entries in the order in which the loop of [try] pops them. *)
Fixpoint pop_all (fuel : nat) (q : cqueue.Queue) : list cqueue.PrioCoord :=
  if cqueue.Len q >? 0 then
    match fuel with
    | O => []
    | S fuel' => let '(x, q') := heap.Pop q in x :: pop_all fuel' q'
    end
  else [].

(** The digits whose bits are set in a mask, in ascending order. *)
Definition digits_of (x : Z) : list Z :=
  List.filter (fun d => Z.testbit x (d - 1)) (zrange 16 1).

Fixpoint Zlist_eqb (l1 l2 : list Z) : bool :=
  match l1, l2 with
  | [], [] => true
  | x :: l1', y :: l2' => (x =? y) && Zlist_eqb l1' l2'
  | _, _ => false
  end.

(** The hypotheses of [try] in the words of the specification: for the
    cells in the order [order], each candidate digit of the cell in
    ascending order. *)
Definition hypotheses (b : board) (order : list cqueue.PrioCoord)
  : list (Coord * Z) :=
  flat_map (fun e => map (fun v => (cqueue.Coord e, v))
                         (digits_of (can (at_ b (cqueue.Coord e)))))
           order.

(** Trying the hypotheses in turn, in the words of the specification: a
    clone of the board is filled with the hypothesis and handed to the
    recursive call; the first success leaves that clone in place of the
    board and answers true, and only when all have failed is the answer
    false, with the board untouched. *)
Fixpoint first_success (solve_rec : board -> Z -> Z -> Z -> option (bool * board))
    (b : board) (depth maxDepth maxWidth : Z) (hyps : list (Coord * Z))
  : option (bool * board) :=
  match hyps with
  | [] => Some (false, b)
  | (c, v) :: rest =>
      match solve_rec (fill b c v) depth maxDepth maxWidth with
      | None => None
      | Some (true, bb) => Some (true, bb)
      | Some (false, _) => first_success solve_rec b depth maxDepth maxWidth rest
      end
  end.

(** Entries in ascending order of their counts. *)
Definition by_count (e1 e2 : cqueue.PrioCoord) : Prop :=
  cqueue.Count e1 <= cqueue.Count e2.

(** The values of the cells of a group, and how often a digit is among
    them. *)
Definition group_values (b : board) (g : group) : list Z :=
  map (fun c => cell.Value (at_ b c)) (group_coords g).

Definition occurrences (d : Z) (vals : list Z) : nat :=
  length (List.filter (Z.eqb d) vals).

(** The solution of the puzzle of [main], row by row, and the board that
    carries it. *)
Definition solution_values : list Z :=
  [ 8; 1; 2; 7; 5; 3; 6; 4; 9;
    9; 4; 3; 6; 8; 2; 1; 7; 5;
    6; 7; 5; 4; 9; 1; 2; 8; 3;
    1; 5; 4; 2; 3; 7; 8; 9; 6;
    3; 6; 9; 8; 4; 5; 7; 2; 1;
    2; 8; 7; 1; 6; 9; 5; 3; 4;
    5; 2; 1; 9; 7; 4; 3; 6; 8;
    4; 3; 8; 5; 2; 6; 9; 1; 7;
    7; 9; 6; 3; 1; 8; 4; 5; 2 ].

Definition solution_board : board := map New solution_values.

(** * Lemmas *)

(** ** Loops over iterators *)

(** When [ended] holds the fuel was enough: the loop was left because
    [Next] answered false. *)
Lemma ended_yields {I V : Type} (next : I -> bool * I) (value : I -> V) fuel i :
  ended next fuel i = true ->
  yields next value i (fst (drive_fuel next value fuel i))
         (snd (drive_fuel next value fuel i)).
Proof.
  revert i. induction fuel as [|fuel IH]; intros i He; [done|].
  simpl in *. destruct (next i) as [more i'] eqn:Hn. destruct more.
  - specialize (IH i' He).
    destruct (drive_fuel next value fuel i') as [l i'']. simpl in *.
    eapply yields_more; eauto.
  - by apply yields_done.
Qed.

Lemma yields_deterministic {I V : Type} (next : I -> bool * I) (value : I -> V)
    i l1 i1 l2 i2 :
  yields next value i l1 i1 -> yields next value i l2 i2 -> l1 = l2 /\ i1 = i2.
Proof.
  intros H1. revert l2 i2.
  induction H1 as [i i' Hn|i i' l i'' Hn _ IH]; intros l2 i2 H2;
    inversion H2; subst; try congruence.
  - split; congruence.
  - assert (i' = i'0) by congruence. subst.
    destruct (IH _ _ H0) as [-> ->]. done.
Qed.

(** ** Fixed-width arithmetic *)

Lemma wrap_i8_small z : -128 <= z < 128 -> wrap_i8 z = z.
Proof. intros Hz. unfold wrap_i8. rewrite Z.mod_small; lia. Qed.

Lemma wrap_int_small z : min_int <= z <= max_int -> wrap_int z = z.
Proof. unfold min_int, max_int, wrap_int. intros Hz. rewrite Z.mod_small; lia. Qed.

Lemma In_zrange n k x : k <= x < k + Z.of_nat n -> In x (zrange n k).
Proof.
  revert k. induction n as [|n IH]; intros k Hx; [lia|].
  simpl. destruct (Z.eq_dec k x); [by left|right].
  apply IH. lia.
Qed.

(** A property of 16-bit masks that a boolean test decides holds when the
    test passes on all 65536 of them. *)
Lemma u16_forall (P : Z -> bool) :
  forallb P (zrange (Z.to_nat 65536) 0) = true ->
  forall x, 0 <= x < 65536 -> P x = true.
Proof.
  intros H x Hx. rewrite forallb_forall in H. apply H.
  apply In_zrange. lia.
Qed.

(** ** Coordinates *)

Lemma Ctoi_valid c : valid c -> Ctoi c = Y c * 9 + X c.
Proof. intros [??]. unfold Ctoi. apply wrap_i8_small. lia. Qed.

Lemma Ctoi_range c : valid c -> 0 <= Ctoi c < 81.
Proof. intros H. rewrite (Ctoi_valid _ H). destruct H. lia. Qed.

Lemma Ctoi_inj c d : valid c -> valid d -> Ctoi c = Ctoi d -> c = d.
Proof.
  intros Hc Hd. rewrite (Ctoi_valid _ Hc), (Ctoi_valid _ Hd).
  destruct c as [x y], d as [x' y'], Hc, Hd. simpl in *.
  intros ?. f_equal; lia.
Qed.

(** [All] yields the 81 coordinates row by row and then answers false. *)
Lemma All_yields :
  yields Next Value All (elements All) (snd (loop All)).
Proof. apply ended_yields. vm_compute. reflexivity. Qed.

Lemma elements_All :
  elements All = (fun i => mkCoord (i mod 9) (i / 9)) <$> seqZ 0 81.
Proof. vm_compute. reflexivity. Qed.

Lemma valid_elements_All c : valid c <-> c ∈ elements All.
Proof.
  rewrite elements_All, list_elem_of_fmap. split.
  - intros [Hx Hy]. exists (Y c * 9 + X c). split.
    + destruct c as [x y]. simpl in *. f_equal.
      * rewrite Z.add_comm, Z.mod_add by lia. rewrite Z.mod_small; lia.
      * rewrite Z.add_comm, Z.div_add by lia. rewrite Z.div_small; lia.
    + apply elem_of_seqZ. lia.
  - intros (i & -> & Hi). apply elem_of_seqZ in Hi. unfold valid. simpl.
    pose proof (Z.mod_pos_bound i 9 ltac:(lia)).
    assert (0 <= i / 9) by (apply Z.div_pos; lia).
    assert (i / 9 < 9) by (apply Z.div_lt_upper_bound; lia).
    lia.
Qed.

(** A decidable property of coordinates holds of every valid one when it
    holds of the 81 that [All] yields. *)
Lemma valid_forall (P : Coord -> Prop) `{!forall c, Decision (P c)} :
  bool_decide (Forall P (elements All)) = true -> forall c, valid c -> P c.
Proof.
  intros Hall c Hc. apply bool_decide_eq_true in Hall.
  rewrite Forall_forall in Hall. apply Hall. by apply valid_elements_All.
Qed.

Lemma valid_forall2 (P : Coord -> Coord -> Prop) `{!forall c d, Decision (P c d)} :
  bool_decide (Forall (fun c => Forall (P c) (elements All)) (elements All)) = true ->
  forall c d, valid c -> valid d -> P c d.
Proof.
  intros Hall c d Hc Hd. apply bool_decide_eq_true in Hall.
  rewrite Forall_forall in Hall.
  specialize (Hall c (proj1 (valid_elements_All c) Hc)).
  rewrite Forall_forall in Hall. apply Hall. by apply valid_elements_All.
Qed.

Lemma fill_iter_yields c :
  yields Next Value (fill_iter c) (elements (fill_iter c)) (snd (loop (fill_iter c))).
Proof. apply ended_yields. reflexivity. Qed.

(** It yields the row of [c], then its column, then its box. *)
Lemma elements_fill_iter c :
  elements (fill_iter c) =
    ((fun i => mkCoord i (Y c)) <$> seqZ 0 9) ++
    ((fun i => mkCoord (X c) i) <$> seqZ 0 9) ++ coords (Box c).
Proof. reflexivity. Qed.

Lemma fill_iter_valid c : valid c -> Forall valid (elements (fill_iter c)).
Proof.
  revert c. apply (valid_forall (fun c => Forall valid (elements (fill_iter c)))).
  vm_compute. reflexivity.
Qed.

Lemma fill_iter_peer c d :
  valid c -> valid d -> d ∈ elements (fill_iter c) <-> peer c d.
Proof.
  revert c d.
  apply (valid_forall2 (fun c d => d ∈ elements (fill_iter c) <-> peer c d)).
  vm_compute. reflexivity.
Qed.

(** ** Cells *)

Ltac digit_cases v :=
  let H := fresh in
  assert (H : v = 1 \/ v = 2 \/ v = 3 \/ v = 4 \/ v = 5 \/ v = 6 \/ v = 7 \/
              v = 8 \/ v = 9) by lia;
  destruct H as [->|[->|[->|[->|[->|[->|[->|[->| ->]]]]]]]].

Lemma drop_mask_testbit v k :
  1 <= v <= 9 -> 0 <= k ->
  Z.testbit (drop_mask v) k = (k <? 16) && negb (k =? v - 1).
Proof.
  intros Hv Hk.
  assert (Hc : k = 0 \/ k = 1 \/ k = 2 \/ k = 3 \/ k = 4 \/ k = 5 \/ k = 6 \/
               k = 7 \/ k = 8 \/ k = 9 \/ k = 10 \/ k = 11 \/ k = 12 \/
               k = 13 \/ k = 14 \/ k = 15 \/ 16 <= k) by lia.
  digit_cases v;
    repeat (destruct Hc as [->|Hc]; [reflexivity|]);
    (rewrite Z.bits_above_log2; [|vm_compute; discriminate|simpl; lia]);
    symmetry; apply andb_false_iff; left; apply Z.ltb_ge; lia.
Qed.

Lemma u16_high_bits x k : 0 <= x < 65536 -> 16 <= k -> Z.testbit x k = false.
Proof.
  intros Hx Hk. destruct (Z.eq_dec x 0) as [->|Hne]; [apply Z.bits_0|].
  apply Z.bits_above_log2; [lia|].
  assert (Z.log2 x < 16) by (apply Z.log2_lt_pow2; lia). lia.
Qed.

Lemma Drop_idem x v : Drop (Drop x v) v = Drop x v.
Proof. unfold Drop. simpl. f_equal. by rewrite <- Z.land_assoc, Z.land_diag. Qed.

Lemma Drop_New v w : Drop (New v) w = New v.
Proof. reflexivity. Qed.

Lemma Drop_Value x v : cell.Value (Drop x v) = cell.Value x.
Proof. reflexivity. Qed.

Lemma land_le_l x m : 0 <= x -> 0 <= Z.land x m <= x.
Proof.
  intros Hx. apply Z.ldiff_le; [done|].
  apply Z.bits_inj'. intros n Hn.
  rewrite Z.ldiff_spec, Z.land_spec, Z.bits_0.
  destruct (Z.testbit x n), (Z.testbit m n); reflexivity.
Qed.

Lemma Drop_can_le x v : 0 <= can x -> 0 <= can (Drop x v) <= can x.
Proof. intros Hx. simpl. by apply land_le_l. Qed.

Lemma Drop_wf x v : wf_cell x -> wf_cell (Drop x v).
Proof.
  intros [Hv Hc]. split; [exact Hv|].
  pose proof (Drop_can_le x v ltac:(lia)). lia.
Qed.

Lemma Drop_testbit x v k :
  wf_cell x -> 1 <= v <= 9 -> 0 <= k ->
  Z.testbit (can (Drop x v)) k = Z.testbit (can x) k && negb (k =? v - 1).
Proof.
  intros [_ Hx] Hv Hk. simpl. rewrite Z.land_spec.
  fold (drop_mask v). rewrite drop_mask_testbit by done.
  destruct (Z.ltb_spec k 16); simpl; [done|].
  rewrite (u16_high_bits _ _ Hx) by lia. done.
Qed.

Lemma Drop_IsPossible x v : 1 <= v <= 9 -> IsPossible (Drop x v) v = false.
Proof.
  intros Hv. unfold IsPossible, Drop. simpl.
  rewrite <- Z.land_assoc.
  replace (Z.land (not_u16 (shl_u16 1 (wrap_u8 (v - 1)))) (shl_u16 1 (wrap_u8 (v - 1))))
    with 0 by (digit_cases v; reflexivity).
  by rewrite Z.land_0_r.
Qed.

(** ** Boards *)

Lemma Ctoi_index b c : wf_board b -> valid c -> (Z.to_nat (Ctoi c) < length b)%nat.
Proof. intros [Hl _] Hc. pose proof (Ctoi_range c Hc). lia. Qed.

Lemma store_length b c x : length (store b c x) = length b.
Proof. apply length_insert. Qed.

Lemma at_wf b c : wf_board b -> valid c -> wf_cell (at_ b c).
Proof.
  intros Hb Hc. destruct Hb as [Hl Hall]. unfold at_.
  eapply Forall_lookup_1; [exact Hall|].
  apply list_lookup_lookup_total_lt. pose proof (Ctoi_range c Hc). lia.
Qed.

Lemma store_wf b c x : wf_board b -> wf_cell x -> wf_board (store b c x).
Proof.
  intros [Hl Hall] Hx. split; [by rewrite store_length|].
  by apply Forall_insert.
Qed.

Lemma at_store_eq b c x : wf_board b -> valid c -> at_ (store b c x) c = x.
Proof.
  intros Hb Hc. unfold at_, store.
  apply list_lookup_total_insert_eq. by apply Ctoi_index.
Qed.

Lemma at_store_ne b c d x :
  valid c -> valid d -> c <> d -> at_ (store b c x) d = at_ b d.
Proof.
  intros Hc Hd Hne. unfold at_, store.
  apply list_lookup_total_insert_ne.
  intros Heq. apply Hne, Ctoi_inj; [done..|].
  pose proof (Ctoi_range c Hc). pose proof (Ctoi_range d Hd). lia.
Qed.

Lemma drop_at_wf v l b : wf_board b -> Forall valid l -> wf_board (drop_at v l b).
Proof.
  revert b. induction l as [|x l IH]; intros b Hb Hl; [done|].
  inversion Hl; subst.
  change (drop_at v (x :: l) b) with (drop_at v l (store b x (Drop (at_ b x) v))).
  apply IH; [|done].
  apply store_wf; [done|]. by apply Drop_wf, at_wf.
Qed.

Lemma drop_at_at v l b d :
  wf_board b -> Forall valid l -> valid d ->
  at_ (drop_at v l b) d = if decide (d ∈ l) then Drop (at_ b d) v else at_ b d.
Proof.
  revert b. induction l as [|x l IH]; intros b Hb Hl Hd.
  - simpl. destruct (decide (d ∈ [])) as [Hin|]; [by inversion Hin|done].
  - inversion Hl as [|?? Hx Hl']; subst.
    change (drop_at v (x :: l) b) with (drop_at v l (store b x (Drop (at_ b x) v))).
    assert (Hb' : wf_board (store b x (Drop (at_ b x) v))).
    { apply store_wf; [done|]. by apply Drop_wf, at_wf. }
    rewrite (IH _ Hb' Hl' Hd).
    destruct (decide (d = x)) as [->|Hne].
    + rewrite at_store_eq by done.
      destruct (decide (x ∈ x :: l)) as [_|Hnin]; [|by destruct Hnin; left].
      destruct (decide (x ∈ l)); [by rewrite Drop_idem|done].
    + rewrite at_store_ne by done.
      destruct (decide (d ∈ l)) as [Hin|Hnin];
        destruct (decide (d ∈ x :: l)) as [Hin'|Hnin']; try done.
      * destruct Hnin'. by right.
      * apply elem_of_cons in Hin' as [?|?]; done.
Qed.

Lemma fill_unfold b c v :
  fill b c v = drop_at v (elements (fill_iter c)) (store b c (New v)).
Proof. unfold fill, drop_at, fill_iter. reflexivity. Qed.

Lemma New_wf v : 0 <= v < 256 -> wf_cell (New v).
Proof. intros Hv. split; simpl; lia. Qed.

Lemma fill_wf b c v : wf_board b -> valid c -> 0 <= v < 256 -> wf_board (fill b c v).
Proof.
  intros Hb Hc Hv. rewrite fill_unfold. apply drop_at_wf.
  - apply store_wf; [done|by apply New_wf].
  - by apply fill_iter_valid.
Qed.

(** What [fill] leaves at every cell of the board. *)
Lemma fill_at b c v d :
  wf_board b -> valid c -> 0 <= v < 256 -> valid d ->
  at_ (fill b c v) d =
    if decide (d = c) then New v
    else if decide (peer c d) then Drop (at_ b d) v
    else at_ b d.
Proof.
  intros Hb Hc Hv Hd. rewrite fill_unfold.
  assert (Hb' : wf_board (store b c (New v))).
  { apply store_wf; [done|by apply New_wf]. }
  rewrite drop_at_at; [|done|by apply fill_iter_valid|done].
  destruct (decide (d = c)) as [->|Hne].
  - rewrite at_store_eq by done.
    destruct (decide (c ∈ elements (fill_iter c))); by rewrite ?Drop_New.
  - rewrite at_store_ne by done.
    destruct (decide (d ∈ elements (fill_iter c))) as [Hin|Hnin].
    + rewrite decide_True; [done|]. by apply fill_iter_peer.
    + rewrite decide_False; [done|]. intros Hp. by apply Hnin, fill_iter_peer.
Qed.

(** ** Claims about [fill] *)

(** C1. After [fill b c v] with a digit [v] from 1 to 9, the cell at [c]
    has the value [v] and no candidate left, and every other cell that
    shares the row, the column or the box of [c] no longer admits [v]:
    [IsPossible] answers false there and bit [v - 1] of the mask is 0. *)
Theorem fill_invariant (b : board) (c : Coord) (v : Z) :
  wf_board b -> valid c -> 1 <= v <= 9 ->
  at_ (fill b c v) c = {| cell.Value := v; can := 0 |} /\
  forall d, valid d -> d <> c -> peer c d ->
    IsPossible (at_ (fill b c v) d) v = false /\
    Z.testbit (can (at_ (fill b c v) d)) (v - 1) = false.
Proof.
  intros Hb Hc Hv. split.
  - rewrite fill_at by (done || lia). by rewrite decide_True.
  - intros d Hd Hne Hp.
    rewrite fill_at by (done || lia).
    rewrite decide_False, decide_True by done. split.
    + by apply Drop_IsPossible.
    + rewrite Drop_testbit; [|by apply at_wf|done|lia].
      rewrite Z.eqb_refl. apply andb_false_r.
Qed.

(** C10. [fill b c v] leaves every cell outside the row, the column and
    the box of [c] as it was, and at the other cells of those groups it
    keeps the value and changes the mask only by clearing bit [v - 1]. *)
Theorem fill_frame (b : board) (c : Coord) (v : Z) :
  wf_board b -> valid c -> 1 <= v <= 9 ->
  forall d, valid d -> d <> c ->
    (~ peer c d -> at_ (fill b c v) d = at_ b d) /\
    (peer c d ->
       cell.Value (at_ (fill b c v) d) = cell.Value (at_ b d) /\
       forall k, 0 <= k ->
         Z.testbit (can (at_ (fill b c v) d)) k =
           Z.testbit (can (at_ b d)) k && negb (k =? v - 1)).
Proof.
  intros Hb Hc Hv d Hd Hne.
  rewrite fill_at by (done || lia). rewrite decide_False by done. split.
  - intros Hp. by rewrite decide_False.
  - intros Hp. rewrite decide_True by done. split; [done|].
    intros k Hk. apply Drop_testbit; [by apply at_wf|done..].
Qed.

(** ** Counting candidates *)

Lemma ones_count_nonneg n k x : 0 <= ones_count n k x.
Proof.
  revert k. induction n as [|n IH]; intros k; simpl; [lia|].
  specialize (IH (k + 1)). destruct (Z.testbit x k); simpl; lia.
Qed.

Lemma ones_count_land_le n k x m : ones_count n k (Z.land x m) <= ones_count n k x.
Proof.
  revert k. induction n as [|n IH]; intros k; simpl; [lia|].
  specialize (IH (k + 1)). rewrite Z.land_spec.
  destruct (Z.testbit x k), (Z.testbit m k); simpl; lia.
Qed.

Lemma PossibilityCount_nonneg x : 0 <= PossibilityCount x.
Proof. apply ones_count_nonneg. Qed.

Lemma PossibilityCount_Drop x v : PossibilityCount (Drop x v) <= PossibilityCount x.
Proof. apply ones_count_land_le. Qed.

Lemma ones_count_zero n k x i :
  0 <= k -> ones_count n k x = 0 -> k <= i < k + Z.of_nat n -> Z.testbit x i = false.
Proof.
  revert k. induction n as [|n IH]; intros k Hk H0 Hi; [lia|].
  simpl in H0. pose proof (ones_count_nonneg n (k + 1) x).
  destruct (Z.testbit x k) eqn:Hb; simpl in H0; [lia|].
  destruct (Z.eq_dec i k) as [->|]; [done|].
  apply (IH (k + 1)); lia.
Qed.

Lemma OnesCount16_zero x : 0 <= x < 65536 -> OnesCount16 x = 0 -> x = 0.
Proof.
  intros Hx H0. apply Z.bits_inj'. intros i Hi. rewrite Z.bits_0.
  destruct (Z.lt_ge_cases i 16).
  - apply (ones_count_zero 16 0 x i); [lia|done|lia].
  - by apply u16_high_bits.
Qed.

Lemma PossibilityCount_pos x : wf_cell x -> can x <> 0 -> 1 <= PossibilityCount x.
Proof.
  intros [_ Hx] Hne. pose proof (PossibilityCount_nonneg x).
  destruct (Z.eq_dec (PossibilityCount x) 0) as [H0|]; [|lia].
  by apply OnesCount16_zero in H0.
Qed.

Lemma PossibilityCount_zero x : can x = 0 -> PossibilityCount x = 0.
Proof. unfold PossibilityCount. by intros ->. Qed.

Lemma IsSingle_can x : IsSingle x = true -> can x <> 0.
Proof. unfold IsSingle, none. intros H%andb_true_iff. destruct H as [H _]. lia. Qed.

Lemma IsPossible_can x v : IsPossible x v = true -> can x <> 0.
Proof.
  unfold IsPossible, none. intros H Hc. rewrite Hc, Z.land_0_l in H. done.
Qed.

Lemma trailing_zeros_range n k x :
  k <= trailing_zeros n k x <= k + Z.of_nat n.
Proof.
  revert k. induction n as [|n IH]; intros k; simpl; [lia|].
  destruct (Z.testbit x k); [lia|]. specialize (IH (k + 1)). lia.
Qed.

Lemma FirstPossibility_range x : 1 <= FirstPossibility x <= 17.
Proof.
  unfold FirstPossibility, TrailingZeros16, wrap_u8.
  pose proof (trailing_zeros_range 16 0 (can x)).
  rewrite Z.mod_small; lia.
Qed.

Lemma candidate_bits_cons x b :
  candidate_bits (x :: b) = PossibilityCount x + candidate_bits b.
Proof. reflexivity. Qed.

Lemma candidate_bits_nonneg b : 0 <= candidate_bits b.
Proof.
  induction b as [|x b IH]; [done|].
  rewrite candidate_bits_cons.
  pose proof (PossibilityCount_nonneg x). lia.
Qed.

Lemma candidate_bits_insert (b : board) (i : nat) (x : Cell) :
  (i < length b)%nat ->
  candidate_bits (<[i := x]> b) =
    candidate_bits b - PossibilityCount (b !!! i) + PossibilityCount x.
Proof.
  revert i. induction b as [|y b IH]; intros i Hi; [simpl in Hi; lia|].
  destruct i as [|i].
  - change (<[0%nat := x]> (y :: b)) with (x :: b).
    change ((y :: b) !!! 0%nat) with y.
    rewrite !candidate_bits_cons. lia.
  - simpl in Hi. specialize (IH i ltac:(lia)).
    change (<[S i := x]> (y :: b)) with (y :: <[i := x]> b).
    change ((y :: b) !!! S i) with (b !!! i).
    rewrite !candidate_bits_cons. lia.
Qed.

Lemma candidate_bits_store b c x :
  wf_board b -> valid c ->
  candidate_bits (store b c x) =
    candidate_bits b - PossibilityCount (at_ b c) + PossibilityCount x.
Proof. intros Hb Hc. apply candidate_bits_insert. by apply Ctoi_index. Qed.

Lemma drop_at_bits v l b :
  wf_board b -> Forall valid l -> candidate_bits (drop_at v l b) <= candidate_bits b.
Proof.
  revert b. induction l as [|x l IH]; intros b Hb Hl; [done|].
  inversion Hl; subst.
  change (drop_at v (x :: l) b) with (drop_at v l (store b x (Drop (at_ b x) v))).
  etrans; [apply IH; [|done]|].
  - apply store_wf; [done|]. by apply Drop_wf, at_wf.
  - rewrite candidate_bits_store by done.
    pose proof (PossibilityCount_Drop (at_ b x) v). lia.
Qed.

(** [fill] takes away at least the candidates of the cell it fills. *)
Lemma fill_bits b c v :
  wf_board b -> valid c -> 0 <= v < 256 ->
  candidate_bits (fill b c v) + PossibilityCount (at_ b c) <= candidate_bits b.
Proof.
  intros Hb Hc Hv. rewrite fill_unfold.
  etrans; [apply Z.add_le_mono_r, drop_at_bits|].
  - apply store_wf; [done|by apply New_wf].
  - by apply fill_iter_valid.
  - rewrite candidate_bits_store by done.
    rewrite (PossibilityCount_zero (New v)) by done. lia.
Qed.

(** ** The propagation rules *)

Ltac by_compute :=
  match goal with
  | |- ?G => apply (bool_decide_eq_true_1 G); vm_compute; reflexivity
  end.

Lemma fold_left_inv {A B : Type} (f : A -> B -> A) (Inv : A -> Prop) l a :
  Inv a -> (forall a x, x ∈ l -> Inv a -> Inv (f a x)) -> Inv (fold_left f l a).
Proof.
  revert a. induction l as [|x l IH]; intros a Ha Hf; [done|].
  simpl. apply IH.
  - apply Hf; [left|done].
  - intros a' y Hy. apply Hf. by right.
Qed.

Lemma fill_solved_cell b c v co :
  wf_board b -> valid c -> valid co -> 1 <= v <= 17 ->
  co = c \/ solved_cell (at_ b co) -> solved_cell (at_ (fill b c v) co).
Proof.
  intros Hb Hc Hco Hv Hor. rewrite fill_at by (done || lia).
  destruct (decide (co = c)) as [->|Hne].
  - split; simpl; lia.
  - destruct Hor as [?|[Hval Hcan]]; [done|].
    destruct (decide (peer c co)); [|done].
    split; [done|]. simpl. by rewrite Hcan.
Qed.

Lemma fill_progress b c v :
  wf_board b -> valid c -> can (at_ b c) <> 0 -> 1 <= v <= 17 ->
  wf_board (fill b c v) /\
  candidate_bits (fill b c v) < candidate_bits b /\
  filled b (fill b c v).
Proof.
  intros Hb Hc Hcan Hv. split; [apply fill_wf; (done || lia)|]. split.
  - pose proof (fill_bits b c v Hb Hc ltac:(lia)).
    pose proof (PossibilityCount_pos (at_ b c) (at_wf b c Hb Hc) Hcan). lia.
  - exists c. split; [done|]. split; [done|].
    apply fill_solved_cell; auto.
Qed.

Lemma filled_fill b0 b c v :
  wf_board b -> valid c -> 1 <= v <= 17 -> filled b0 b -> filled b0 (fill b c v).
Proof.
  intros Hb Hc Hv (co & Hco & Hcan & Hs). exists co. split; [done|]. split; [done|].
  apply fill_solved_cell; auto.
Qed.

Lemma groups_iter_yields :
  yields Next Value groups_iter (elements groups_iter) (snd (loop groups_iter)).
Proof. apply ended_yields. vm_compute. reflexivity. Qed.

(** From here on the loops over iterators are used through the lemmas
    above.  [discriminate] and [injection] head-normalise the equations
    they look at with the call-by-name machine of the tactics, which does
    not finish on the loops of the iterators; the closing tactics below
    leave them out, and equations between results are taken apart with
    [Some_inj] and [pair_inj]. *)
#[global] Opaque coord.elements coord.loop cell.possibilities fill.

Lemma Some_inj {A : Type} (x y : A) : Some x = Some y -> x = y.
Proof. congruence. Qed.

Lemma pair_inj {A B : Type} (x x' : A) (y y' : B) :
  (x, y) = (x', y') -> x = x' /\ y = y'.
Proof. split; congruence. Qed.

Lemma Some_pair_inj {A B : Type} (x x' : A) (y y' : B) :
  Some (x, y) = Some (x', y') -> x = x' /\ y = y'.
Proof. split; congruence. Qed.

Ltac finish :=
  solve [ repeat first
    [ fast_done
    | solve [trivial]
    | progress intros
    | split
    | match goal with
      | H : true = false |- _ => discriminate H
      | H : false = true |- _ => discriminate H
      | H : Some _ = None |- _ => discriminate H
      | H : None = Some _ |- _ => discriminate H
      | H : ?x <> ?x |- _ => destruct H; reflexivity
      end ] ].

(** ** The two rules *)

Lemma digits_range j : j ∈ digits -> 1 <= j <= 9.
Proof.
  unfold digits. intros H.
  repeat (apply elem_of_cons in H as [->|H]; [lia|]).
  by apply elem_of_nil in H.
Qed.

Lemma place_digit_spec b counts co js b' :
  place_digit b counts co js = Some b' ->
  exists j, j ∈ js /\ IsPossible (at_ b co) j = true /\
            counts !!! Z.to_nat (j - 1) = 1 /\ b' = fill b co j.
Proof.
  induction js as [|j js IH]; cbn [place_digit]; [intros; finish|].
  destruct (IsPossible (at_ b co) j) eqn:Hp; cbn [andb].
  - destruct (Z.eqb_spec (counts !!! Z.to_nat (j - 1)) 1) as [Hone|Hne].
    + intros H. apply Some_inj in H. subst b'.
      exists j. split; [left|]. finish.
    + intros H. destruct (IH H) as (j' & ? & ? & ? & ?).
      exists j'. split; [right; assumption|]. finish.
  - intros H. destruct (IH H) as (j' & ? & ? & ? & ?).
    exists j'. split; [right; assumption|]. finish.
Qed.

Lemma place_spec b counts r b' :
  place b counts r = Some b' ->
  exists co j, co ∈ r /\ j ∈ digits /\ IsPossible (at_ b co) j = true /\
               counts !!! Z.to_nat (j - 1) = 1 /\ b' = fill b co j.
Proof.
  induction r as [|co r IH]; cbn [place]; [intros; finish|].
  destruct (place_digit b counts co digits) as [b1|] eqn:Hd.
  - intros H. apply Some_inj in H. subst b1.
    apply place_digit_spec in Hd as (j & ? & ? & ? & ?).
    exists co, j. split; [left|]. finish.
  - intros H. destruct (IH H) as (co' & j & ? & ?).
    exists co', j. split; [right; assumption|]. finish.
Qed.

(** The 27 groups [onlyPlace] visits hold valid coordinates only. *)
Lemma groups_valid :
  Forall (fun g => Forall valid (group_coords g)) (elements groups_iter).
Proof. by_compute. Qed.

Lemma onlyPlace_groups_spec b gs r b' :
  Forall (fun g => Forall valid (group_coords g)) gs ->
  onlyPlace_groups b gs = (r, b') ->
  (r = false /\ b' = b) \/
  (r = true /\ exists co j, valid co /\ 1 <= j <= 9 /\
                 IsPossible (at_ b co) j = true /\ b' = fill b co j).
Proof.
  induction gs as [|g gs IH]; intros Hgs; cbn [onlyPlace_groups].
  - intros H. apply pair_inj in H as [<- <-]. left. finish.
  - apply Forall_cons in Hgs as [Hg Hgs'].
    unfold group_coords in Hg.
    destruct (loop g) as [cs g1]. cbn [snd] in Hg.
    destruct (place b (tally b cs) (elements (Reset g1))) as [b1|] eqn:Hp.
    + intros H. apply pair_inj in H as [<- <-].
      right. split; [reflexivity|].
      apply place_spec in Hp as (co & j & Hco & Hj & Hposs & _ & ->).
      exists co, j. rewrite Forall_forall in Hg.
      split; [apply Hg; assumption|]. split; [apply digits_range; assumption|].
      finish.
    + apply IH. assumption.
Qed.

Lemma onlyPlace_spec b r b' :
  onlyPlace b = (r, b') ->
  (r = false /\ b' = b) \/
  (r = true /\ exists co j, valid co /\ 1 <= j <= 9 /\
                 IsPossible (at_ b co) j = true /\ b' = fill b co j).
Proof.
  intros H. unfold onlyPlace in H. fold groups_iter in H.
  exact (onlyPlace_groups_spec b (elements groups_iter) r b' groups_valid H).
Qed.

Section Preservation.
(** A property of boards that [fill] keeps when it fills, with a digit, a
    cell that has candidates. *)
Variable P : board -> Prop.
Hypothesis P_fill :
  forall b c v, wf_board b -> P b -> valid c -> can (at_ b c) <> 0 ->
                1 <= v <= 17 -> P (fill b c v).

Lemma singlePossible_fold b0 l r b :
  Forall valid l ->
  fold_left singlePossible_step l (false, b0) = (r, b) ->
  wf_board b0 -> P b0 ->
  wf_board b /\ P b /\
  (r = false -> b = b0) /\
  (r = true -> candidate_bits b < candidate_bits b0 /\ filled b0 b).
Proof.
  intros Hl Hfold Hb0 HP0.
  pose (Inv := fun s : bool * board =>
    wf_board s.2 /\ P s.2 /\ candidate_bits s.2 <= candidate_bits b0 /\
    (s.1 = false -> s.2 = b0) /\
    (s.1 = true -> candidate_bits s.2 < candidate_bits b0 /\ filled b0 s.2)).
  assert (HI : Inv (fold_left singlePossible_step l (false, b0))).
  { clear Hfold. apply fold_left_inv.
    - unfold Inv. cbn [fst snd].
      split; [assumption|]. split; [assumption|]. split; [lia|].
      split; [reflexivity|]. intros Hc. discriminate Hc.
    - intros [r1 b1] co Hco (Hwf & HP & Hle & Hf & Ht). cbn [fst snd] in *.
      rewrite Forall_forall in Hl. specialize (Hl co Hco).
      unfold Inv, singlePossible_step.
      destruct (IsSingle (at_ b1 co)) eqn:Hs; cbn [fst snd].
      2: { split; [assumption|]. split; [assumption|]. split; [assumption|].
           split; assumption. }
      pose proof (IsSingle_can _ Hs) as Hcan.
      pose proof (FirstPossibility_range (at_ b1 co)) as Hv.
      destruct (fill_progress b1 co _ Hwf Hl Hcan Hv) as (Hwf' & Hlt & Hfill).
      split; [assumption|]. split; [apply P_fill; assumption|]. split; [lia|].
      split; [intros Hc; discriminate Hc|]. intros _. split; [lia|].
      destruct r1.
      + destruct (Ht eq_refl) as [_ Hfl]. apply filled_fill; assumption.
      + pose proof (Hf eq_refl) as E. subst b1. assumption. }
  rewrite Hfold in HI. destruct HI as (? & ? & ? & ? & ?).
  split; [assumption|]. split; [assumption|]. split; assumption.
Qed.

Lemma singlePossible_spec b r b' :
  singlePossible b = (r, b') -> wf_board b -> P b ->
  wf_board b' /\ P b' /\
  (r = false -> b' = b) /\
  (r = true -> candidate_bits b' < candidate_bits b /\ filled b b').
Proof.
  intros H. unfold singlePossible in H.
  refine (singlePossible_fold b (elements All) r b' _ H).
  apply Forall_forall. intros c Hc. apply valid_elements_All. assumption.
Qed.

Lemma onlyPlace_preserves b r b' :
  onlyPlace b = (r, b') -> wf_board b -> P b ->
  wf_board b' /\ P b' /\
  (r = false -> b' = b) /\
  (r = true -> candidate_bits b' < candidate_bits b /\ filled b b').
Proof.
  intros H Hb HP.
  destruct (onlyPlace_spec _ _ _ H) as [[-> ->]|(-> & co & j & Hco & Hj & Hposs & ->)];
    clear H.
  - split; [assumption|]. split; [assumption|]. split; [reflexivity|].
    intros Hc. discriminate Hc.
  - pose proof (IsPossible_can _ _ Hposs) as Hcan.
    destruct (fill_progress b co j Hb Hco Hcan ltac:(lia)) as (? & ? & ?).
    split; [assumption|]. split; [apply P_fill; (assumption || lia)|].
    split; [intros Hc; discriminate Hc|]. intros _. split; assumption.
Qed.

Lemma propagate_fuel_spec n b b' :
  propagate_fuel n b = Some b' -> wf_board b -> P b ->
  wf_board b' /\ P b' /\ candidate_bits b' <= candidate_bits b /\
  singlePossible b' = (false, b') /\ onlyPlace b' = (false, b').
Proof.
  revert b. induction n as [|n IH]; intros b; cbn [propagate_fuel].
  { intros H. discriminate H. }
  destruct (singlePossible b) as [r1 b1] eqn:H1. intros H Hb HP.
  destruct (singlePossible_spec _ _ _ H1 Hb HP) as (Hb1 & HP1 & Hf1 & Ht1).
  destruct r1.
  - destruct (Ht1 eq_refl) as [Hlt _].
    destruct (IH _ H Hb1 HP1) as (? & ? & ? & ? & ?).
    split; [assumption|]. split; [assumption|]. split; [lia|]. split; assumption.
  - pose proof (Hf1 eq_refl) as ->.
    destruct (onlyPlace b) as [r2 b2] eqn:H2.
    destruct (onlyPlace_preserves _ _ _ H2 Hb HP) as (Hb2 & HP2 & Hf2 & Ht2).
    destruct r2.
    + destruct (Ht2 eq_refl) as [Hlt _].
      destruct (IH _ H Hb2 HP2) as (? & ? & ? & ? & ?).
      split; [assumption|]. split; [assumption|]. split; [lia|]. split; assumption.
    + apply Some_inj in H. subst b'. pose proof (Hf2 eq_refl) as ->.
      split; [assumption|]. split; [assumption|]. split; [lia|]. split; assumption.
Qed.
End Preservation.

(** With more rounds than candidate bits the loop is left by both rules
    answering false. *)
Lemma propagate_fuel_total n b :
  wf_board b -> candidate_bits b < Z.of_nat n ->
  exists b', propagate_fuel n b = Some b'.
Proof.
  revert b. induction n as [|n IH]; intros b Hb Hn.
  - pose proof (candidate_bits_nonneg b). lia.
  - cbn [propagate_fuel]. destruct (singlePossible b) as [r1 b1] eqn:H1.
    destruct (singlePossible_spec (fun _ => True) ltac:(trivial) _ _ _ H1 Hb I)
      as (Hb1 & _ & Hf1 & Ht1).
    destruct r1.
    + destruct (Ht1 eq_refl) as [Hlt _]. apply IH; [assumption|lia].
    + pose proof (Hf1 eq_refl) as ->.
      destruct (onlyPlace b) as [r2 b2] eqn:H2.
      destruct (onlyPlace_preserves (fun _ => True) ltac:(trivial) _ _ _ H2 Hb I)
        as (Hb2 & _ & Hf2 & Ht2).
      destruct r2; [|eexists; reflexivity].
      destruct (Ht2 eq_refl) as [Hlt _]. apply IH; [assumption|lia].
Qed.

Lemma propagate_total b : wf_board b -> exists b', propagate b = Some b'.
Proof.
  intros Hb. unfold propagate. apply propagate_fuel_total; [assumption|].
  pose proof (candidate_bits_nonneg b). lia.
Qed.

(** On a board where neither rule fires the loop stops at once. *)
Lemma propagate_fixpoint b :
  singlePossible b = (false, b) -> onlyPlace b = (false, b) ->
  propagate b = Some b.
Proof.
  intros H1 H2. unfold propagate. cbn [propagate_fuel]. rewrite H1, H2. reflexivity.
Qed.

(** ** Claims about propagation *)

(** C2. The propagation loop terminates.  A call of either rule that
    answers true has filled a cell that had candidates and has strictly
    decreased the number of candidate bits of the board; from every board
    the loop therefore ends, and on the board it leaves both rules answer
    false and change nothing. *)
Theorem propagation_terminates (b : board) :
  wf_board b ->
  (forall b', singlePossible b = (true, b') ->
     wf_board b' /\ candidate_bits b' < candidate_bits b /\ filled b b') /\
  (forall b', onlyPlace b = (true, b') ->
     wf_board b' /\ candidate_bits b' < candidate_bits b /\ filled b b') /\
  exists b', propagate b = Some b' /\
             singlePossible b' = (false, b') /\ onlyPlace b' = (false, b').
Proof.
  intros Hb. split; [|split].
  - intros b' H.
    destruct (singlePossible_spec (fun _ => True) ltac:(trivial) _ _ _ H Hb I)
      as (? & _ & _ & Ht). destruct (Ht eq_refl).
    split; [assumption|]. split; assumption.
  - intros b' H.
    destruct (onlyPlace_preserves (fun _ => True) ltac:(trivial) _ _ _ H Hb I)
      as (? & _ & _ & Ht). destruct (Ht eq_refl).
    split; [assumption|]. split; assumption.
  - destruct (propagate_total b Hb) as [b' H]. exists b'. split; [assumption|].
    unfold propagate in H.
    destruct (propagate_fuel_spec (fun _ => True) ltac:(trivial) _ _ _ H Hb I)
      as (_ & _ & _ & ? & ?). split; assumption.
Qed.

(** ** The queue and the heap *)

Lemma insert_swap_head {A : Type} (l : list A) (j : nat) (x y : A) :
  l !! j = Some y -> y :: <[j := x]> l ≡ₚ x :: l.
Proof.
  revert j. induction l as [|h t IH]; intros j Hj; [done|].
  destruct j as [|j]; simpl in *.
  - injection Hj as ->. apply Permutation_swap.
  - etrans; [apply (Permutation_swap h y)|].
    etrans; [apply perm_skip, (IH _ Hj)|]. apply Permutation_swap.
Qed.

Lemma insert_insert_swap {A : Type} (l : list A) (i j : nat) (x y : A) :
  l !! i = Some x -> l !! j = Some y -> <[j := x]> (<[i := y]> l) ≡ₚ l.
Proof.
  revert i j. induction l as [|h t IH]; intros i j Hi Hj; [done|].
  destruct i as [|i], j as [|j]; simpl in *.
  - by injection Hi as ->.
  - injection Hi as ->. by apply insert_swap_head.
  - injection Hj as ->. by apply insert_swap_head.
  - f_equiv. by apply IH.
Qed.

Lemma Swap_perm (q : cqueue.Queue) i j :
  0 <= i < cqueue.Len q -> 0 <= j < cqueue.Len q -> cqueue.Swap q i j ≡ₚ q.
Proof.
  unfold cqueue.Len, cqueue.Swap. intros Hi Hj.
  apply insert_insert_swap; apply list_lookup_lookup_total_lt; lia.
Qed.

Lemma Swap_length (q : cqueue.Queue) i j : length (cqueue.Swap q i j) = length q.
Proof. unfold cqueue.Swap. by rewrite !length_insert. Qed.

Lemma Swap_Len (q : cqueue.Queue) i j : cqueue.Len (cqueue.Swap q i j) = cqueue.Len q.
Proof. unfold cqueue.Len. by rewrite Swap_length. Qed.

Lemma up_fuel_perm fuel (h : cqueue.Queue) j :
  0 <= j < cqueue.Len h -> heap.up_fuel fuel h j ≡ₚ h.
Proof.
  revert h j. induction fuel as [|fuel IH]; intros h j Hj; [done|].
  simpl. destruct ((j - 1) ÷ 2 =? j) eqn:Heq; simpl; [done|].
  destruct (cqueue.Less h j ((j - 1) ÷ 2)); simpl; [|done].
  assert (0 <= (j - 1) ÷ 2 < j).
  { apply Z.eqb_neq in Heq.
    destruct (Z.eq_dec j 0) as [->|]; [done|].
    split; [apply Z.quot_pos; lia|]. apply Z.quot_lt_upper_bound; lia. }
  rewrite IH by (rewrite Swap_Len; lia).
  apply Swap_perm; lia.
Qed.

Lemma wrap_int_overflow z :
  max_int < z <= 2 * max_int + 1 -> wrap_int z = z - 18446744073709551616.
Proof.
  unfold max_int, wrap_int. intros Hz.
  rewrite <- (Z.mod_add _ (-1)) by lia. rewrite Z.mod_small; lia.
Qed.

Lemma down_fuel_perm fuel (h : cqueue.Queue) i n :
  0 <= i < n -> n <= cqueue.Len h -> cqueue.Len h <= max_int ->
  heap.down_fuel fuel h i n ≡ₚ h.
Proof.
  revert h i. induction fuel as [|fuel IH]; intros h i Hi Hn Hmax; [done|].
  cbn [heap.down_fuel].
  set (j1 := wrap_int (2 * i + 1)). set (j2 := wrap_int (j1 + 1)).
  destruct (Z.geb_spec j1 n); cbn [orb]; [done|].
  destruct (Z.ltb_spec j1 0); cbn [orb]; [done|].
  assert (Hj2 : j2 = j1 + 1).
  { subst j2. apply wrap_int_small. unfold min_int, max_int in *. lia. }
  set (j := if (j2 <? n) && cqueue.Less h j2 j1 then j2 else j1).
  assert (0 <= j < n).
  { subst j. destruct (Z.ltb_spec j2 n); cbn [andb]; [|lia].
    destruct (cqueue.Less h j2 j1); lia. }
  destruct (cqueue.Less h j i); cbn [negb]; [|done].
  rewrite IH by (rewrite ?Swap_Len; lia).
  apply Swap_perm; lia.
Qed.

Lemma up_perm (h : cqueue.Queue) j : 0 <= j < cqueue.Len h -> heap.up h j ≡ₚ h.
Proof. apply up_fuel_perm. Qed.

Lemma down_perm (h : cqueue.Queue) i n :
  0 <= i <= max_int -> n <= cqueue.Len h -> cqueue.Len h <= max_int ->
  heap.down h i n ≡ₚ h.
Proof.
  intros Hi Hn Hmax.
  destruct (Z.lt_ge_cases i n); [apply down_fuel_perm; lia|].
  unfold heap.down. destruct (length h) as [|fuel]; [done|].
  cbn [heap.down_fuel].
  assert (Hj : wrap_int (2 * i + 1) >= n \/ wrap_int (2 * i + 1) < 0).
  { destruct (Z.le_gt_cases (2 * i + 1) max_int).
    - left. rewrite wrap_int_small; unfold min_int, max_int in *; lia.
    - right. rewrite wrap_int_overflow; unfold max_int in *; lia. }
  destruct (Z.geb_spec (wrap_int (2 * i + 1)) n); cbn [orb]; [done|].
  destruct (Z.ltb_spec (wrap_int (2 * i + 1)) 0); cbn [orb]; [done|].
  lia.
Qed.

Lemma heap_Push_perm (h : cqueue.Queue) x : heap.Push h x ≡ₚ x :: h.
Proof.
  unfold heap.Push, cqueue.Push. rewrite up_perm.
  - by rewrite Permutation_app_comm.
  - unfold cqueue.Len. rewrite length_app. simpl. lia.
Qed.

Lemma heap_Pop_perm (h : cqueue.Queue) x h' :
  h <> [] -> cqueue.Len h <= max_int -> heap.Pop h = (x, h') -> x :: h' ≡ₚ h.
Proof.
  intros Hne Hmax. unfold heap.Pop, cqueue.Pop.
  set (n := cqueue.Len h - 1).
  assert (Hn : 0 <= n < cqueue.Len h).
  { subst n. unfold cqueue.Len. destruct h; [done|]. cbn [length]. lia. }
  set (h1 := heap.down (cqueue.Swap h 0 n) 0 n).
  assert (Hp : h1 ≡ₚ h).
  { subst h1. rewrite down_perm by (rewrite ?Swap_Len; unfold max_int in *; lia).
    apply Swap_perm; lia. }
  assert (Hl : cqueue.Len h1 = cqueue.Len h).
  { unfold cqueue.Len. by rewrite Hp. }
  intros H. apply pair_inj in H as [<- <-]. rewrite Hl. fold n.
  rewrite <- Hp.
  rewrite <- (take_drop_middle h1 (Z.to_nat n) (h1 !!! Z.to_nat n)) at 3.
  - rewrite <- Permutation_middle. f_equiv.
    rewrite drop_ge; [by rewrite app_nil_r|].
    unfold cqueue.Len in *. lia.
  - apply list_lookup_lookup_total_lt. unfold cqueue.Len in *. lia.
Qed.

Lemma heap_Pop_length (h : cqueue.Queue) x h' :
  h <> [] -> cqueue.Len h <= max_int -> heap.Pop h = (x, h') ->
  length h = S (length h').
Proof.
  intros Hne Hmax Hpop. by rewrite <- (heap_Pop_perm _ _ _ Hne Hmax Hpop).
Qed.

Lemma tries_fold_perm b maxWidth l (q : cqueue.Queue) :
  fold_left
    (fun q c =>
       let p := PossibilityCount (at_ b c) in
       if (0 <? p) && (p <=? maxWidth)
       then heap.Push q {| cqueue.Count := p; cqueue.Coord := c |}
       else q) l q
  ≡ₚ omap (fun c =>
             let p := PossibilityCount (at_ b c) in
             if (0 <? p) && (p <=? maxWidth)
             then Some {| cqueue.Count := p; cqueue.Coord := c |}
             else None) l ++ q.
Proof.
  revert q. induction l as [|c l IH]; intros q; simpl; [done|].
  rewrite IH.
  destruct ((0 <? PossibilityCount (at_ b c)) &&
            (PossibilityCount (at_ b c) <=? maxWidth)); simpl; [|done].
  rewrite heap_Push_perm. by rewrite Permutation_middle.
Qed.

Lemma tries_perm b maxWidth : tries b maxWidth ≡ₚ entries b maxWidth.
Proof.
  unfold tries, entries, cqueue.New.
  rewrite tries_fold_perm. by rewrite app_nil_r.
Qed.

Lemma entries_ok b maxWidth : Forall (entry_ok b maxWidth) (entries b maxWidth).
Proof.
  unfold entries. apply Forall_forall. intros e He.
  apply list_elem_of_omap in He as (c & Hc & He).
  apply valid_elements_All in Hc.
  destruct (Z.ltb_spec 0 (PossibilityCount (at_ b c))); simpl in He; [|done].
  destruct (Z.leb_spec (PossibilityCount (at_ b c)) maxWidth); simpl in He; [|done].
  injection He as <-. unfold entry_ok. simpl. split; [done|]. lia.
Qed.

Lemma tries_ok b maxWidth : Forall (entry_ok b maxWidth) (tries b maxWidth).
Proof. rewrite tries_perm. apply entries_ok. Qed.


Lemma length_omap_le {A B : Type} (f : A -> option B) l :
  (length (omap f l) <= length l)%nat.
Proof.
  induction l as [|x l IH]; cbn [omap list_omap length]; [lia|].
  destruct (f x); cbn [length]; lia.
Qed.

Lemma length_elements_All : length (elements All) = 81%nat.
Proof. vm_compute. reflexivity. Qed.

Lemma tries_Len b maxWidth : cqueue.Len (tries b maxWidth) <= 81.
Proof.
  unfold cqueue.Len. rewrite tries_perm.
  assert (length (entries b maxWidth) <= 81)%nat; [|lia].
  unfold entries. etrans; [apply length_omap_le|].
  rewrite length_elements_All. lia.
Qed.

(** ** The search *)

Lemma drive_fuel_Forall {I V : Type} (next : I -> bool * I) (value : I -> V)
    (Q : V -> Prop) fuel i :
  (forall i, Q (value i)) -> Forall Q (fst (drive_fuel next value fuel i)).
Proof.
  intros HQ. revert i. induction fuel as [|fuel IH]; intros i; cbn [drive_fuel].
  { constructor. }
  destruct (next i) as [more i']. destruct more; [|constructor].
  specialize (IH i'). destruct (drive_fuel next value fuel i'). cbn [fst] in *.
  constructor; [apply HQ|assumption].
Qed.

Lemma Value_it_range i : 1 <= Value_it i <= 17.
Proof.
  unfold Value_it, TrailingZeros16, wrap_u8.
  pose proof (trailing_zeros_range 16 0 (it_can i)).
  rewrite Z.mod_small; lia.
Qed.

Lemma possibilities_range x : Forall (fun v => 1 <= v <= 17) (possibilities x).
Proof.
  Transparent possibilities. unfold possibilities. Opaque possibilities.
  apply (drive_fuel_Forall cell.Next Value_it (fun v => 1 <= v <= 17)).
  apply Value_it_range.
Qed.

Lemma entry_ok_can b maxWidth e :
  entry_ok b maxWidth e -> can (at_ b (cqueue.Coord e)) <> 0.
Proof.
  intros (_ & Hc & Hp) H0. rewrite (PossibilityCount_zero _ H0) in Hc. lia.
Qed.

Lemma Len_pos_nonempty (q : cqueue.Queue) :
  (cqueue.Len q >? 0) = true <-> q <> [].
Proof.
  unfold cqueue.Len. rewrite Z.gtb_lt.
  destruct q; cbn [length]; split; intros H; try congruence; lia.
Qed.

Section SearchSpec.
(** [P] is a property [fill] keeps, [Q] what a successful recursive call
    promises of the board it leaves. *)
Variable P : board -> Prop.
Variable Q : board -> Prop.
Hypothesis P_fill :
  forall b c v, wf_board b -> P b -> valid c -> can (at_ b c) <> 0 ->
                1 <= v <= 17 -> P (fill b c v).
Variable solve_rec : board -> Z -> Z -> Z -> option (bool * board).
Variable b : board.
Variables depth maxDepth maxWidth : Z.
Hypothesis rec_ok :
  forall bb b', wf_board bb -> P bb ->
    solve_rec bb (wrap_int (depth + 1)) maxDepth maxWidth = Some (true, b') ->
    Q b'.
Hypothesis Hb : wf_board b.
Hypothesis HP : P b.

Lemma try_candidates_spec c vs bb :
  valid c -> can (at_ b c) <> 0 -> Forall (fun v => 1 <= v <= 17) vs ->
  try_candidates solve_rec b depth maxDepth maxWidth c vs = Some (Some bb) ->
  Q bb.
Proof.
  intros Hc Hcan. induction vs as [|v vs IH]; intros Hvs; cbn [try_candidates].
  { intros H. apply Some_inj in H. discriminate H. }
  apply Forall_cons in Hvs as [Hv Hvs'].
  destruct (solve_rec (fill b c v) (wrap_int (depth + 1)) maxDepth maxWidth)
    as [[[] b1]|] eqn:Hr.
  - intros H. apply Some_inj in H. apply Some_inj in H. subst b1.
    eapply rec_ok; [| |exact Hr].
    + apply fill_wf; (assumption || lia).
    + apply P_fill; assumption.
  - apply IH. assumption.
  - intros H. discriminate H.
Qed.

Lemma try_queue_spec fuel (q : cqueue.Queue) r b' :
  Forall (entry_ok b maxWidth) q -> cqueue.Len q <= max_int ->
  try_queue solve_rec b depth maxDepth maxWidth fuel q = Some (r, b') ->
  (r = false -> b' = b) /\ (r = true -> Q b').
Proof.
  revert q. induction fuel as [|fuel IH]; intros q Hq Hmax; cbn [try_queue].
  - destruct (cqueue.Len q >? 0); intros H; [discriminate H|].
    apply Some_pair_inj in H as [<- <-]. split; [reflexivity|].
    intros Hc. discriminate Hc.
  - destruct (cqueue.Len q >? 0) eqn:Hlen.
    2: { intros H. apply Some_pair_inj in H as [<- <-]. split; [reflexivity|].
         intros Hc. discriminate Hc. }
    apply Len_pos_nonempty in Hlen.
    destruct (heap.Pop q) as [x q'] eqn:Hpop.
    pose proof (heap_Pop_perm _ _ _ Hlen Hmax Hpop) as Hperm.
    assert (Hmax' : cqueue.Len q' <= max_int).
    { unfold cqueue.Len in *. rewrite <- Hperm in Hmax. cbn [length] in Hmax. lia. }
    rewrite <- Hperm in Hq. apply Forall_cons in Hq as [Hx Hq'].
    clear Hpop Hperm.
    destruct (try_candidates solve_rec b depth maxDepth maxWidth
                (cqueue.Coord x) (possibilities (at_ b (cqueue.Coord x))))
      as [[bb|]|] eqn:Htc.
    + intros H. apply Some_pair_inj in H as [<- <-].
      split; [intros Hc; discriminate Hc|]. intros _.
      eapply try_candidates_spec; [| | |exact Htc].
      * destruct Hx as [Hx _]. exact Hx.
      * eapply entry_ok_can. exact Hx.
      * apply possibilities_range.
    + apply IH; assumption.
    + intros H. discriminate H.
Qed.

Lemma try_with_spec r b' :
  try_with solve_rec b depth maxDepth maxWidth = Some (r, b') ->
  (r = false -> b' = b) /\ (r = true -> Q b').
Proof.
  unfold try_with. apply try_queue_spec.
  - apply tries_ok.
  - pose proof (tries_Len b maxWidth). unfold max_int. lia.
Qed.
End SearchSpec.

Section SolveSpec.
Variable P : board -> Prop.
Hypothesis P_fill :
  forall b c v, wf_board b -> P b -> valid c -> can (at_ b c) <> 0 ->
                1 <= v <= 17 -> P (fill b c v).

(** What [solve] leaves: on success a solved board, on failure the board
    it was given when the depth guard fired and otherwise that board after
    the propagation loop. *)
Lemma solve_fuel_spec fuel b depth maxDepth maxWidth r b' :
  solve_fuel fuel b depth maxDepth maxWidth = Some (r, b') ->
  wf_board b -> P b ->
  wf_board b' /\ P b' /\
  (r = true -> solved b' = true) /\
  (r = false ->
     if depth >=? maxDepth then b' = b else propagate b = Some b').
Proof.
  revert b depth r b'. induction fuel as [|fuel IH]; intros b depth r b';
    cbn [solve_fuel].
  { intros H. discriminate H. }
  destruct (depth >=? maxDepth) eqn:Hd.
  { intros H Hb HP. apply Some_pair_inj in H as [<- <-].
    split; [assumption|]. split; [assumption|].
    split; [intros Hc; discriminate Hc|]. reflexivity. }
  destruct (propagate b) as [b1|] eqn:Hp; [|intros H; discriminate H].
  intros H Hb HP.
  pose proof Hp as Hp'. unfold propagate in Hp'.
  destruct (propagate_fuel_spec P P_fill _ _ _ Hp' Hb HP) as (Hb1 & HP1 & _).
  clear Hp'.
  destruct (solved b1) eqn:Hs.
  { apply Some_pair_inj in H as [<- <-].
    split; [assumption|]. split; [assumption|].
    split; [intros _; assumption|]. intros Hc. discriminate Hc. }
  destruct (contradicts b1) eqn:Hc.
  { apply Some_pair_inj in H as [<- <-].
    split; [assumption|]. split; [assumption|].
    split; [intros Hc'; discriminate Hc'|]. reflexivity. }
  assert (Hrec : forall bb b2, wf_board bb -> P bb ->
            solve_fuel fuel bb (wrap_int (depth + 1)) maxDepth maxWidth
              = Some (true, b2) ->
            wf_board b2 /\ P b2 /\ solved b2 = true).
  { intros bb b2 Hbb HPbb Hr.
    destruct (IH _ _ _ _ Hr Hbb HPbb) as (? & ? & Hsol & _).
    split; [assumption|]. split; [assumption|]. apply Hsol. reflexivity. }
  destruct (try_with_spec P (fun b' => wf_board b' /\ P b' /\ solved b' = true)
              P_fill (solve_fuel fuel) b1 depth maxDepth maxWidth
              Hrec Hb1 HP1 r b' H) as [Hf Htr].
  clear H. destruct r.
  - destruct (Htr eq_refl) as (? & ? & ?).
    split; [assumption|]. split; [assumption|].
    split; [intros _; assumption|]. intros Hc'. discriminate Hc'.
  - pose proof (Hf eq_refl) as ->.
    split; [assumption|]. split; [assumption|].
    split; [intros Hc'; discriminate Hc'|]. intros _. reflexivity.
Qed.

Lemma solve_spec b depth maxDepth maxWidth r b' :
  solve b depth maxDepth maxWidth = Some (r, b') ->
  wf_board b -> P b ->
  wf_board b' /\ P b' /\
  (r = true -> solved b' = true) /\
  (r = false ->
     if depth >=? maxDepth then b' = b else propagate b = Some b').
Proof. unfold solve. apply solve_fuel_spec. Qed.

Lemma iterate_from_spec fuel maxDepth b b' :
  iterate_from fuel maxDepth b = Some b' ->
  wf_board b -> P b ->
  wf_board b' /\ P b' /\ solved b' = true.
Proof.
  revert maxDepth b. induction fuel as [|fuel IH]; intros maxDepth b;
    cbn [iterate_from].
  { intros H. discriminate H. }
  destruct (solve b 0 maxDepth (Z.max (maxDepth ÷ 3) 2)) as [[r b1]|] eqn:Hs;
    [|intros H; discriminate H].
  intros H Hb HP.
  destruct (solve_spec _ _ _ _ _ _ Hs Hb HP) as (Hb1 & HP1 & Ht & _).
  clear Hs. destruct r.
  - apply Some_inj in H. subst b1.
    split; [assumption|]. split; [assumption|]. apply Ht. reflexivity.
  - eapply IH; eassumption.
Qed.
End SolveSpec.

(** ** Claims about contradictions, failures and the invariant *)

Lemma at_all (Q : Cell -> Prop) b :
  wf_board b -> (forall c, valid c -> Q (at_ b c)) -> Forall Q b.
Proof.
  intros [Hl _] HQ. apply Forall_lookup_2. intros i x Hi.
  pose proof (lookup_lt_Some _ _ _ Hi) as Hlt. rewrite Hl in Hlt.
  set (c := mkCoord (Z.of_nat i mod 9) (Z.of_nat i / 9)).
  assert (Hc : valid c).
  { unfold valid, c. cbn [X Y].
    pose proof (Z.mod_pos_bound (Z.of_nat i) 9 ltac:(lia)).
    assert (0 <= Z.of_nat i / 9) by (apply Z.div_pos; lia).
    assert (Z.of_nat i / 9 < 9) by (apply Z.div_lt_upper_bound; lia).
    lia. }
  assert (Hi' : Ctoi c = Z.of_nat i).
  { rewrite (Ctoi_valid c Hc). unfold c. cbn [X Y].
    pose proof (Z.div_mod (Z.of_nat i) 9 ltac:(lia)). lia. }
  specialize (HQ c Hc). unfold at_ in HQ. rewrite Hi', Nat2Z.id in HQ.
  rewrite (list_lookup_total_correct _ _ _ Hi) in HQ. exact HQ.
Qed.

Lemma contradicts_iff b :
  wf_board b ->
  contradicts b = true <-> exists c, valid c /\ dead_cell (at_ b c).
Proof.
  intros Hb. unfold contradicts. rewrite existsb_exists. split.
  - intros (c & Hc & Hd). apply list_elem_of_In, valid_elements_All in Hc.
    apply andb_true_iff in Hd as [Hv Hp]. exists c. split; [assumption|].
    split; [lia|]. apply OnesCount16_zero; [|unfold PossibilityCount in Hp; lia].
    destruct (at_wf b c Hb Hc) as [_ Hr]. exact Hr.
  - intros (c & Hc & Hv & Hp). exists c. split.
    + apply list_elem_of_In, valid_elements_All. assumption.
    + rewrite Hv, (PossibilityCount_zero _ Hp). reflexivity.
Qed.

Lemma dead_cell_unsolved b c :
  valid c -> dead_cell (at_ b c) -> solved b = false.
Proof.
  intros Hc [Hv _]. destruct (solved b) eqn:Hs; [|reflexivity].
  unfold solved in Hs. rewrite forallb_forall in Hs.
  specialize (Hs c ltac:(apply list_elem_of_In, valid_elements_All; assumption)).
  unfold IsEmpty, empty in Hs. rewrite Hv in Hs. discriminate Hs.
Qed.

Lemma fill_dead_cell c b c' v :
  valid c -> wf_board b -> dead_cell (at_ b c) -> valid c' ->
  can (at_ b c') <> 0 -> 1 <= v <= 17 -> dead_cell (at_ (fill b c' v) c).
Proof.
  intros Hc Hb [Hv Hp] Hc' Hcan Hr.
  rewrite fill_at by (assumption || lia).
  destruct (decide (c = c')) as [->|Hne]; [congruence|].
  destruct (decide (peer c' c)); [|split; assumption].
  split; [assumption|]. cbn [can Drop]. rewrite Hp. reflexivity.
Qed.

(** C7. [contradicts] answers true exactly when some cell has the value 0
    and no candidate; a board with such a cell is not [solved], and
    [solve] answers false on it, whatever the budget. *)
Theorem contradiction_detected (b : board) :
  wf_board b ->
  (contradicts b = true <-> exists c, valid c /\ dead_cell (at_ b c)) /\
  ((exists c, valid c /\ dead_cell (at_ b c)) ->
   solved b = false /\
   forall depth maxDepth maxWidth,
     exists b', solve b depth maxDepth maxWidth = Some (false, b')).
Proof.
  intros Hb. split; [apply contradicts_iff; assumption|].
  intros (c & Hc & Hd). split; [eapply dead_cell_unsolved; eassumption|].
  intros depth maxDepth maxWidth. unfold solve. cbn [solve_fuel].
  destruct (depth >=? maxDepth); [eexists; reflexivity|].
  destruct (propagate_total b Hb) as [b1 Hp]. rewrite Hp.
  unfold propagate in Hp.
  destruct (propagate_fuel_spec (fun b => dead_cell (at_ b c))
              (fun b0 c' v Hb0 Hd0 Hc' Hcan Hv =>
                 fill_dead_cell c b0 c' v Hc Hb0 Hd0 Hc' Hcan Hv)
              _ _ _ Hp Hb Hd) as (Hb1 & Hd1 & _).
  rewrite (dead_cell_unsolved b1 c Hc Hd1).
  assert (Hcon : contradicts b1 = true).
  { apply contradicts_iff; [assumption|]. exists c. split; assumption. }
  rewrite Hcon. eexists. reflexivity.
Qed.

Lemma fill_cell_invariant b c v :
  wf_board b -> valid c -> 0 <= v < 256 ->
  (forall d, valid d -> cell_invariant (at_ b d)) ->
  forall d, valid d -> cell_invariant (at_ (fill b c v) d).
Proof.
  intros Hb Hc Hv Hinv d Hd. rewrite fill_at by assumption.
  destruct (decide (d = c)); [intros _; reflexivity|].
  destruct (decide (peer c d)); [|apply Hinv; assumption].
  intros Hval. cbn [Drop cell.Value can] in *.
  rewrite (Hinv d Hd Hval). reflexivity.
Qed.

Lemma initial_board_wf : wf_board initial_board.
Proof. by_compute. Qed.

Lemma initial_board_invariant : Forall cell_invariant initial_board.
Proof. by_compute. Qed.

Lemma at_Forall (Q : Cell -> Prop) b c :
  wf_board b -> Forall Q b -> valid c -> Q (at_ b c).
Proof.
  intros Hb HQ Hc. unfold at_. eapply Forall_lookup_1; [exact HQ|].
  apply list_lookup_lookup_total_lt. apply Ctoi_index; assumption.
Qed.

Lemma reachable_invariant b :
  reachable b -> wf_board b /\ forall d, valid d -> cell_invariant (at_ b d).
Proof.
  pose (P := fun b : board => forall d, valid d -> cell_invariant (at_ b d)).
  assert (P_fill : forall b c v, wf_board b -> P b -> valid c ->
                     can (at_ b c) <> 0 -> 1 <= v <= 17 -> P (fill b c v)).
  { intros b0 c v Hb0 HP Hc _ Hv.
    exact (fill_cell_invariant b0 c v Hb0 Hc ltac:(lia) HP). }
  induction 1 as [|b c v _ [Hb HP] Hc Hv|b r b' _ [Hb HP] H|b r b' _ [Hb HP] H
                  |b depth maxDepth maxWidth r b' _ [Hb HP] H|b fuel b' _ [Hb HP] H].
  - split; [apply initial_board_wf|]. intros d Hd.
    apply at_Forall; [apply initial_board_wf|apply initial_board_invariant|assumption].
  - split; [apply fill_wf; assumption|].
    exact (fill_cell_invariant b c v Hb Hc Hv HP).
  - destruct (singlePossible_spec P P_fill _ _ _ H Hb HP) as (? & ? & _).
    split; assumption.
  - destruct (onlyPlace_preserves P P_fill _ _ _ H Hb HP) as (? & ? & _).
    split; assumption.
  - destruct (solve_spec P P_fill _ _ _ _ _ _ H Hb HP) as (? & ? & _).
    split; assumption.
  - unfold iterate in H.
    destruct (iterate_from_spec P P_fill _ _ _ _ H Hb HP) as (? & ? & _).
    split; assumption.
Qed.

(** C8. Every board reachable from the initial board by [fill],
    [singlePossible], [onlyPlace], [solve] and [iterate] keeps the
    invariant of cells: a cell with a value other than 0 has the candidate
    mask 0. *)
Theorem reachable_cell_invariant (b : board) :
  reachable b -> Forall cell_invariant b.
Proof.
  intros H. destruct (reachable_invariant b H) as [Hb Hinv].
  apply at_all; assumption.
Qed.

Lemma propagate_idempotent b b' :
  wf_board b -> propagate b = Some b' -> propagate b' = Some b'.
Proof.
  intros Hb H. unfold propagate in H.
  destruct (propagate_fuel_spec (fun _ => True) ltac:(trivial) _ _ _ H Hb I)
    as (_ & _ & _ & H1 & H2).
  apply propagate_fixpoint; assumption.
Qed.

(** C3, as the code has it.  When [solve] answers false the board is as
    it was if the depth guard fired, and otherwise it is the board the
    propagation loop left, with no guess of [try] on it; propagating that
    board again changes nothing, so the next attempt of [iterate] starts
    from the propagated original. *)
Theorem solve_failure_board (b : board) (depth maxDepth maxWidth : Z) (b' : board) :
  wf_board b ->
  solve b depth maxDepth maxWidth = Some (false, b') ->
  (maxDepth <= depth /\ b' = b) \/
  (depth < maxDepth /\ propagate b = Some b' /\ propagate b' = Some b').
Proof.
  intros Hb H.
  destruct (solve_spec (fun _ => True) ltac:(trivial) _ _ _ _ _ _ H Hb I)
    as (_ & _ & _ & Hf).
  specialize (Hf eq_refl). clear H.
  destruct (Z.geb_spec depth maxDepth).
  - left. split; [lia|assumption].
  - right. split; [lia|]. split; [assumption|].
    eapply propagate_idempotent; eassumption.
Qed.

Lemma row_board_wf : wf_board row_board.
Proof. by_compute. Qed.

Lemma row_board_solve : solve row_board 0 1 2 = Some (false, row_board_after).
Proof. vm_compute. reflexivity. Qed.

(** C3 as stated fails: on [row_board] with the budget (0, 1, 2) [solve]
    answers false and leaves the ninth cell of the top row filled with 9,
    which it was not before the call. *)
Lemma solve_failure_changes_board :
  wf_board row_board /\
  solve row_board 0 1 2 = Some (false, row_board_after) /\
  cell.Value (at_ row_board (mkCoord 8 0)) = 0 /\
  cell.Value (at_ row_board_after (mkCoord 8 0)) = 9 /\
  row_board_after <> row_board.
Proof.
  split; [apply row_board_wf|]. split; [apply row_board_solve|].
  split; [vm_compute; reflexivity|]. split; [vm_compute; reflexivity|].
  intros E.
  assert (E' : cell.Value (at_ row_board_after (mkCoord 8 0)) =
               cell.Value (at_ row_board (mkCoord 8 0))) by (rewrite E; reflexivity).
  vm_compute in E'. discriminate E'.
Qed.

(** ** Claims about [iterate] *)

Lemma solve_depth_guard b depth maxDepth maxWidth :
  maxDepth <= depth -> solve b depth maxDepth maxWidth = Some (false, b).
Proof.
  intros H. unfold solve. cbn [solve_fuel].
  destruct (Z.geb_spec depth maxDepth); [reflexivity|lia].
Qed.

Lemma iterate_from_run fuel maxDepth b b' :
  min_int <= maxDepth -> maxDepth + Z.of_nat fuel <= max_int + 1 ->
  iterate_from fuel maxDepth b = Some b' <->
  exists n, (n <= fuel)%nat /\ iterate_run maxDepth n b b'.
Proof.
  revert maxDepth b. induction fuel as [|fuel IH]; intros maxDepth b Hmin Hmax;
    cbn [iterate_from].
  { split; [intros H; discriminate H|].
    intros (n & Hn & Hrun). destruct Hrun; lia. }
  split.
  - destruct (solve b 0 maxDepth (Z.max (maxDepth ÷ 3) 2)) as [[[] b1]|] eqn:Hs.
    + intros H. apply Some_inj in H. subst b1.
      exists 1%nat. split; [lia|]. apply run_success. assumption.
    + destruct fuel as [|fuel'].
      { cbn [iterate_from]. intros H. discriminate H. }
      rewrite wrap_int_small by (unfold min_int, max_int in *; lia).
      intros H. apply IH in H as (n & Hn & Hrun); [|lia..].
      exists (S n). split; [lia|]. eapply run_retry; eassumption.
    + intros H. discriminate H.
  - intros (n & Hn & Hrun).
    inversion Hrun as [md b0 b0' Hs|md n' b0 b1 b0' Hs Hrun']; subst; rewrite Hs.
    + reflexivity.
    + assert (n' <> 0)%nat by (destruct Hrun'; lia).
      rewrite wrap_int_small by (unfold min_int, max_int in *; lia).
      apply IH; [lia..|]. exists n'. split; [lia|assumption].
Qed.

(** C6. [iterate] starts with [maxDepth] 3 and calls
    [solve 0 maxDepth (max (maxDepth / 3) 2)]; after a failed call it goes
    on with [maxDepth + 1] and it stops at the first call that succeeds
    ([iterate_run]; in the 64-bit [int] of the program, for any number of
    attempts that does not take [maxDepth] past the largest [int]).  And a
    call of [solve] with [depth >= maxDepth] answers false at once and
    leaves the board as it was. *)
Theorem iterate_deepening (b : board) :
  (forall fuel b', Z.of_nat fuel <= max_int - 2 ->
     (iterate fuel b = Some b' <->
      exists n, (n <= fuel)%nat /\ iterate_run 3 n b b')) /\
  (forall depth maxDepth maxWidth,
     maxDepth <= depth -> solve b depth maxDepth maxWidth = Some (false, b)).
Proof.
  split.
  - intros fuel b' Hfuel. unfold iterate. apply iterate_from_run.
    + unfold min_int. lia.
    + lia.
  - intros depth maxDepth maxWidth. apply solve_depth_guard.
Qed.

(** ** The order of the heap *)

Ltac zlia := Z.to_euclidean_division_equations; lia.

Lemma Less_count (h : cqueue.Queue) i j :
  cqueue.Less h i j = (count_at h i <? count_at h j).
Proof. reflexivity. Qed.

Lemma Swap_count_at (h : cqueue.Queue) i j k :
  0 <= i < cqueue.Len h -> 0 <= j < cqueue.Len h -> 0 <= k ->
  count_at (cqueue.Swap h i j) k =
    if k =? j then count_at h i else if k =? i then count_at h j else count_at h k.
Proof.
  unfold cqueue.Len, count_at, cqueue.Swap. intros Hi Hj Hk.
  destruct (Z.eqb_spec k j) as [->|Hkj].
  - rewrite list_lookup_total_insert_eq; [reflexivity|].
    rewrite length_insert. lia.
  - rewrite list_lookup_total_insert_ne by lia.
    destruct (Z.eqb_spec k i) as [->|Hki].
    + rewrite list_lookup_total_insert_eq; [reflexivity|lia].
    + rewrite list_lookup_total_insert_ne by lia. reflexivity.
Qed.

Lemma root_min (h : cqueue.Queue) n k :
  heap_ordered h n -> 0 <= k < n -> count_at h 0 <= count_at h k.
Proof.
  intros Hh [Hk0 Hkn]. revert Hkn. pattern k.
  apply Z_lt_induction; [|assumption]. clear k Hk0. intros k IH Hkn.
  destruct (Z.eq_dec k 0) as [->|Hne]; [lia|].
  destruct (Z.lt_ge_cases k 0).
  { unfold count_at. replace (Z.to_nat k) with (Z.to_nat 0) by lia. lia. }
  assert (Hp : 0 <= parent k < k) by (unfold parent; zlia).
  specialize (IH (parent k) ltac:(lia) ltac:(lia)).
  specialize (Hh k ltac:(lia)). lia.
Qed.

Lemma up_fuel_Len fuel (h : cqueue.Queue) j :
  cqueue.Len (heap.up_fuel fuel h j) = cqueue.Len h.
Proof.
  revert h j. induction fuel as [|fuel IH]; intros h j; cbn [heap.up_fuel];
    [reflexivity|].
  destruct ((parent j =? j) || negb (cqueue.Less h j (parent j))) eqn:Hc;
    unfold parent in Hc; rewrite Hc; [reflexivity|].
  rewrite IH. apply Swap_Len.
Qed.

Lemma up_fuel_ordered fuel (h : cqueue.Queue) j :
  0 <= j < cqueue.Len h -> j < Z.of_nat fuel -> up_inv h j ->
  heap_ordered (heap.up_fuel fuel h j) (cqueue.Len h).
Proof.
  revert h j. induction fuel as [|fuel IH]; intros h j Hj Hfuel [Hinv Hgr]; [lia|].
  cbn [heap.up_fuel]. fold (parent j). rewrite Less_count.
  destruct (Z.eqb_spec (parent j) j) as [Hpj|Hpj]; cbn [orb].
  { assert (j = 0) as -> by (unfold parent in Hpj; zlia).
    intros k Hk. apply Hinv; lia. }
  assert (Hp : 0 <= parent j < j) by (unfold parent in *; zlia).
  destruct (Z.ltb_spec (count_at h j) (count_at h (parent j))) as [Hlt|Hge];
    cbn [negb].
  2: { intros k Hk. destruct (Z.eq_dec k j) as [->|Hne]; [lia|].
       apply Hinv; assumption. }
  rewrite <- (Swap_Len h (parent j) j).
  apply IH; rewrite ?Swap_Len; [lia|lia|].
  assert (Hsw : forall k, 0 <= k ->
            count_at (cqueue.Swap h (parent j) j) k =
              if k =? j then count_at h (parent j)
              else if k =? parent j then count_at h j else count_at h k).
  { intros k Hk. apply Swap_count_at; lia. }
  split.
  - intros k Hk Hne. rewrite Swap_Len in Hk.
    assert (0 <= parent k < k) by (unfold parent; zlia).
    rewrite (Hsw k), (Hsw (parent k)) by lia.
    destruct (Z.eqb_spec k j) as [->|Hkj].
    + rewrite Z.eqb_refl.
      destruct (Z.eqb_spec (parent j) j); lia.
    + destruct (Z.eqb_spec k (parent j)); [lia|].
      destruct (Z.eqb_spec (parent k) j) as [Hpk|Hpk].
      * apply Hgr; lia.
      * specialize (Hinv k Hk Hkj).
        destruct (Z.eqb_spec (parent k) (parent j)) as [Hpp|Hpp]; [|assumption].
        rewrite Hpp in Hinv. lia.
  - intros k Hk Hpk Hpos. rewrite Swap_Len in Hk.
    assert (0 <= parent (parent j) < parent j) by (unfold parent in *; zlia).
    rewrite (Hsw k), (Hsw (parent (parent j))) by lia.
    destruct (Z.eqb_spec (parent (parent j)) j); [lia|].
    destruct (Z.eqb_spec (parent (parent j)) (parent j)); [lia|].
    pose proof (Hinv (parent j) ltac:(lia) ltac:(lia)) as Hpar.
    destruct (Z.eqb_spec k j) as [->|Hkj]; [assumption|].
    destruct (Z.eqb_spec k (parent j)); [unfold parent in *; zlia|].
    specialize (Hinv k Hk Hkj). rewrite Hpk in Hinv. lia.
Qed.

Lemma down_fuel_Len fuel (h : cqueue.Queue) i n :
  cqueue.Len (heap.down_fuel fuel h i n) = cqueue.Len h.
Proof.
  revert h i. induction fuel as [|fuel IH]; intros h i; cbn [heap.down_fuel];
    [reflexivity|].
  destruct ((wrap_int (2 * i + 1) >=? n) || (wrap_int (2 * i + 1) <? 0));
    [reflexivity|].
  match goal with |- context [negb ?c] => destruct (negb c) end; [reflexivity|].
  rewrite IH. apply Swap_Len.
Qed.

(** The first child of [i], as [down] computes it. *)
Lemma first_child i n :
  0 <= i < n -> n <= max_int ->
  ((wrap_int (2 * i + 1) >=? n) || (wrap_int (2 * i + 1) <? 0) = true /\
   n <= 2 * i + 1) \/
  ((wrap_int (2 * i + 1) >=? n) || (wrap_int (2 * i + 1) <? 0) = false /\
   wrap_int (2 * i + 1) = 2 * i + 1 /\ 2 * i + 1 < n /\
   wrap_int (2 * i + 1 + 1) = 2 * i + 2).
Proof.
  intros Hi Hn. destruct (Z.le_gt_cases (2 * i + 1) max_int) as [Hs|Hl].
  - rewrite (wrap_int_small (2 * i + 1)) by (unfold min_int, max_int in *; lia).
    destruct (Z.geb_spec (2 * i + 1) n); cbn [orb].
    + left. split; [reflexivity|lia].
    + destruct (Z.ltb_spec (2 * i + 1) 0); [lia|].
      right. split; [reflexivity|]. split; [reflexivity|]. split; [lia|].
      rewrite wrap_int_small; unfold min_int, max_int in *; lia.
  - left. rewrite wrap_int_overflow by (unfold max_int in *; lia).
    split; [|lia].
    destruct (Z.geb_spec (2 * i + 1 - 18446744073709551616) n); [reflexivity|].
    destruct (Z.ltb_spec (2 * i + 1 - 18446744073709551616) 0); [reflexivity|].
    unfold max_int in *. lia.
Qed.

Lemma down_fuel_frame fuel (h : cqueue.Queue) i n k :
  0 <= i < n -> n <= cqueue.Len h -> cqueue.Len h <= max_int -> n <= k ->
  heap.down_fuel fuel h i n !!! Z.to_nat k = h !!! Z.to_nat k.
Proof.
  revert h i. induction fuel as [|fuel IH]; intros h i Hi Hn Hmax Hk;
    cbn [heap.down_fuel]; [reflexivity|].
  destruct (first_child i n Hi ltac:(lia)) as [[-> _]|(-> & -> & Hlt & Hj2)];
    [reflexivity|].
  rewrite Hj2.
  set (j := if (2 * i + 2 <? n) && cqueue.Less h (2 * i + 2) (2 * i + 1)
            then 2 * i + 2 else 2 * i + 1).
  assert (Hj : i < j < n).
  { subst j. destruct (Z.ltb_spec (2 * i + 2) n); cbn [andb]; [|lia].
    destruct (cqueue.Less h (2 * i + 2) (2 * i + 1)); lia. }
  destruct (negb (cqueue.Less h j i)); [reflexivity|].
  rewrite IH by (rewrite ?Swap_Len; lia).
  unfold cqueue.Swap. rewrite !list_lookup_total_insert_ne by lia. reflexivity.
Qed.

Lemma down_fuel_ordered fuel (h : cqueue.Queue) i n :
  0 <= i < n -> n <= cqueue.Len h -> cqueue.Len h <= max_int ->
  n - i <= Z.of_nat fuel -> down_inv h n i ->
  heap_ordered (heap.down_fuel fuel h i n) n.
Proof.
  revert h i. induction fuel as [|fuel IH]; intros h i Hi Hn Hmax Hfuel [Hinv Hgr];
    [lia|].
  cbn [heap.down_fuel].
  destruct (first_child i n Hi ltac:(lia)) as [[-> Hno]|(-> & -> & Hlt & Hj2)].
  { intros k Hk. apply Hinv; [assumption|]. unfold parent. zlia. }
  rewrite Hj2. rewrite !Less_count.
  set (j := if (2 * i + 2 <? n) && (count_at h (2 * i + 2) <? count_at h (2 * i + 1))
            then 2 * i + 2 else 2 * i + 1).
  assert (Hj : (j = 2 * i + 1 \/ j = 2 * i + 2) /\ j < n /\
               count_at h j <= count_at h (2 * i + 1) /\
               (2 * i + 2 < n -> count_at h j <= count_at h (2 * i + 2))).
  { subst j. destruct (Z.ltb_spec (2 * i + 2) n); cbn [andb]; [|lia].
    destruct (Z.ltb_spec (count_at h (2 * i + 2)) (count_at h (2 * i + 1))); lia. }
  clearbody j. destruct Hj as (Hjc & Hjn & Hj1 & Hj2').
  assert (Hchild : forall k, 0 < k < n -> parent k = i ->
                     count_at h j <= count_at h k).
  { intros k Hk Hpk.
    assert (k = 2 * i + 1 \/ k = 2 * i + 2) as [->| ->]
      by (unfold parent in Hpk; zlia); [assumption|apply Hj2'; lia]. }
  destruct (Z.ltb_spec (count_at h j) (count_at h i)) as [Hless|Hge]; cbn [negb].
  2: { intros k Hk. destruct (Z.eq_dec (parent k) i) as [Hpk|Hpk].
       - rewrite Hpk. specialize (Hchild k Hk Hpk). lia.
       - apply Hinv; assumption. }
  assert (Hpj : parent j = i) by (unfold parent; zlia).
  assert (Hsw : forall k, 0 <= k ->
            count_at (cqueue.Swap h i j) k =
              if k =? j then count_at h i
              else if k =? i then count_at h j else count_at h k).
  { intros k Hk. apply Swap_count_at; lia. }
  apply IH; rewrite ?Swap_Len; [lia|lia|lia|lia|].
  split.
  - intros k Hk Hne.
    assert (0 <= parent k < k) by (unfold parent; zlia).
    rewrite (Hsw k), (Hsw (parent k)) by lia.
    destruct (Z.eqb_spec (parent k) j); [lia|].
    destruct (Z.eqb_spec k j) as [->|Hkj].
    + rewrite Hpj, Z.eqb_refl. lia.
    + destruct (Z.eqb_spec k i) as [->|Hki].
      * destruct (Z.eqb_spec (parent i) i); [lia|].
        apply Hgr; lia.
      * destruct (Z.eqb_spec (parent k) i) as [Hpk|Hpk].
        -- apply Hchild; assumption.
        -- apply Hinv; assumption.
  - intros k Hk Hpk Hpos.
    assert (0 <= parent k < k) by (unfold parent; zlia).
    rewrite (Hsw k), (Hsw (parent j)) by lia.
    rewrite Hpj.
    destruct (Z.eqb_spec i j); [lia|]. rewrite Z.eqb_refl.
    destruct (Z.eqb_spec k j); [lia|].
    destruct (Z.eqb_spec k i); [lia|].
    pose proof (Hinv k Hk ltac:(lia)) as Hk'. rewrite Hpk in Hk'. exact Hk'.
Qed.

Lemma count_at_app_l (h : cqueue.Queue) x k :
  0 <= k < cqueue.Len h -> count_at (h ++ [x]) k = count_at h k.
Proof.
  unfold cqueue.Len, count_at. intros Hk.
  rewrite lookup_total_app_l by lia. reflexivity.
Qed.

(** [heap.Push] keeps the order of the heap. *)
Lemma heap_Push_ordered (h : cqueue.Queue) x :
  heap_ordered h (cqueue.Len h) ->
  heap_ordered (heap.Push h x) (cqueue.Len (heap.Push h x)).
Proof.
  intros Hh. unfold heap.Push, cqueue.Push, heap.up.
  rewrite up_fuel_Len.
  assert (HL : cqueue.Len (h ++ [x]) = cqueue.Len h + 1).
  { unfold cqueue.Len. rewrite length_app. cbn [length]. lia. }
  apply up_fuel_ordered.
  - rewrite HL. unfold cqueue.Len. lia.
  - rewrite HL. unfold cqueue.Len. rewrite length_app. cbn [length]. lia.
  - rewrite HL. replace (cqueue.Len h + 1 - 1) with (cqueue.Len h) by lia.
    split.
    + intros k Hk Hne. rewrite HL in Hk.
      assert (0 <= parent k < k) by (unfold parent; zlia).
      rewrite !count_at_app_l by lia. apply Hh. lia.
    + intros k Hk Hpk. rewrite HL in Hk. unfold parent in Hpk. zlia.
Qed.

Lemma count_at_take (h : cqueue.Queue) n k :
  0 <= k < n -> count_at (take (Z.to_nat n) h) k = count_at h k.
Proof.
  unfold count_at. intros Hk. rewrite lookup_total_take.
  rewrite decide_True by lia. reflexivity.
Qed.

(** [heap.Pop] hands out the root of the heap, whose count is minimal,
    and keeps the order of the rest. *)
Lemma heap_Pop_ordered (h : cqueue.Queue) x h' :
  h <> [] -> cqueue.Len h <= max_int -> heap_ordered h (cqueue.Len h) ->
  heap.Pop h = (x, h') ->
  x = h !!! 0%nat /\ heap_ordered h' (cqueue.Len h') /\
  Forall (fun y => cqueue.Count x <= cqueue.Count y) h.
Proof.
  intros Hne Hmax Hh Hpop.
  pose proof (heap_Pop_length _ _ _ Hne Hmax Hpop) as Hlen.
  unfold heap.Pop, cqueue.Pop in Hpop.
  set (n := cqueue.Len h - 1) in *.
  assert (Hn : 0 <= n /\ cqueue.Len h = n + 1) by (subst n; unfold cqueue.Len; lia).
  destruct Hn as [Hn0 HnL].
  set (h1 := cqueue.Swap h 0 n) in *.
  assert (HL1 : cqueue.Len h1 = cqueue.Len h) by apply Swap_Len.
  assert (Hdl : cqueue.Len (heap.down h1 0 n) = cqueue.Len h).
  { unfold heap.down. rewrite down_fuel_Len. exact HL1. }
  rewrite Hdl in Hpop. fold n in Hpop.
  apply pair_inj in Hpop as [Hx Hh'].
  assert (Hx' : x = h !!! 0%nat).
  { rewrite <- Hx. destruct (Z.eq_dec n 0) as [Hz|Hnz].
    - unfold heap.down. destruct (length h1); cbn [heap.down_fuel].
      + subst h1. rewrite Hz. unfold cqueue.Swap.
        cbn [Z.to_nat]. rewrite list_lookup_total_insert_eq; [reflexivity|].
        rewrite length_insert. unfold cqueue.Len in *. lia.
      + rewrite Hz. cbn [orb Z.geb].
        replace (wrap_int (2 * 0 + 1) >=? 0) with true by (vm_compute; reflexivity).
        cbn [orb]. subst h1. rewrite Hz. unfold cqueue.Swap.
        cbn [Z.to_nat]. rewrite list_lookup_total_insert_eq; [reflexivity|].
        rewrite length_insert. unfold cqueue.Len in *. lia.
    - unfold heap.down. rewrite down_fuel_frame by lia.
      subst h1. unfold cqueue.Swap.
      rewrite list_lookup_total_insert_eq; [reflexivity|].
      rewrite length_insert. unfold cqueue.Len in *. lia. }
  split; [exact Hx'|]. split.
  - rewrite <- Hh'. unfold cqueue.Len at 1.
    rewrite length_take. replace (Z.of_nat (Z.to_nat n `min` length (heap.down h1 0 n)))
      with n by (unfold cqueue.Len in *; lia).
    intros k Hk. assert (0 <= parent k < k) by (unfold parent; zlia).
    rewrite !count_at_take by lia.
    destruct (Z.eq_dec n 0); [lia|].
    unfold heap.down. apply down_fuel_ordered; try lia.
    + unfold cqueue.Len in *. lia.
    + split.
      * intros k' Hk' Hpk'.
        assert (0 <= parent k' < k') by (unfold parent; zlia).
        subst h1. rewrite !Swap_count_at by lia.
        destruct (Z.eqb_spec k' n); [lia|].
        destruct (Z.eqb_spec k' 0); [lia|].
        destruct (Z.eqb_spec (parent k') n); [lia|].
        destruct (Z.eqb_spec (parent k') 0); [lia|].
        apply Hh. lia.
      * intros k' _ _ Hc. lia.
  - rewrite Hx'. apply Forall_lookup_2. intros i y Hi.
    pose proof (lookup_lt_Some _ _ _ Hi) as Hlt.
    pose proof (root_min h (cqueue.Len h) (Z.of_nat i) Hh) as Hr.
    unfold count_at in Hr. rewrite Nat2Z.id in Hr. cbn [Z.to_nat] in Hr.
    rewrite (list_lookup_total_correct _ _ _ Hi) in Hr.
    apply Hr. unfold cqueue.Len. lia.
Qed.

Lemma tries_ordered b maxWidth :
  heap_ordered (tries b maxWidth) (cqueue.Len (tries b maxWidth)).
Proof.
  unfold tries.
  apply (fold_left_inv _ (fun q : cqueue.Queue => heap_ordered q (cqueue.Len q))).
  - intros k Hk. unfold cqueue.New, cqueue.Len in Hk. cbn [length] in Hk. lia.
  - intros q c _ Hq.
    destruct ((0 <? PossibilityCount (at_ b c)) &&
              (PossibilityCount (at_ b c) <=? maxWidth)); [|assumption].
    apply heap_Push_ordered. assumption.
Qed.

(** Popping until the queue is empty hands out every entry once, in
    ascending order of the counts. *)
Lemma pop_all_spec fuel (q : cqueue.Queue) :
  heap_ordered q (cqueue.Len q) -> cqueue.Len q <= max_int ->
  (length q <= fuel)%nat ->
  pop_all fuel q ≡ₚ q /\ StronglySorted by_count (pop_all fuel q).
Proof.
  revert q. induction fuel as [|fuel IH]; intros q Hq Hmax Hfuel; cbn [pop_all].
  - destruct q; [|cbn [length] in Hfuel; lia].
    cbn. split; [reflexivity|constructor].
  - destruct (cqueue.Len q >? 0) eqn:Hlen.
    2: { destruct q as [|e q]; [split; [reflexivity|constructor]|].
         unfold cqueue.Len in Hlen. cbn [length] in Hlen.
         rewrite Z.gtb_ltb in Hlen. apply Z.ltb_ge in Hlen. lia. }
    apply Len_pos_nonempty in Hlen.
    destruct (heap.Pop q) as [x q'] eqn:Hpop.
    pose proof (heap_Pop_perm _ _ _ Hlen Hmax Hpop) as Hperm.
    destruct (heap_Pop_ordered _ _ _ Hlen Hmax Hq Hpop) as (_ & Hq' & Hmin).
    clear Hpop.
    assert (Hlen' : length q = S (length q')) by (rewrite <- Hperm; reflexivity).
    destruct (IH q' Hq' ltac:(unfold cqueue.Len in *; lia) ltac:(lia))
      as [Hp Hs].
    split.
    + rewrite Hp. exact Hperm.
    + constructor; [assumption|].
      rewrite Hp. rewrite <- Hperm in Hmin. apply Forall_cons in Hmin as [_ Hmin].
      exact Hmin.
Qed.

(** ** The iterator over the candidates of a cell *)

Lemma Zlist_eqb_eq l1 l2 : Zlist_eqb l1 l2 = true -> l1 = l2.
Proof.
  revert l2. induction l1 as [|x l1 IH]; intros [|y l2]; cbn [Zlist_eqb];
    intros H; try reflexivity; try discriminate H.
  apply andb_true_iff in H as [Hx Hl]. apply Z.eqb_eq in Hx. subst y.
  f_equal. apply IH. assumption.
Qed.

Lemma possibilities_mask x : possibilities x = possibilities (mkCell 0 (can x)).
Proof.
  Transparent possibilities. unfold possibilities. Opaque possibilities.
  reflexivity.
Qed.

Lemma possibilities_check :
  forallb (fun c => (c =? 0) || Zlist_eqb (possibilities (mkCell 0 c)) (digits_of c))
          (zrange (Z.to_nat 65536) 0) = true.
Proof. vm_cast_no_check (eq_refl true). Qed.

(** For a cell with candidates the iterator yields the digits whose bits
    are set, each once, in ascending order. *)
Lemma possibilities_set_bits x :
  wf_cell x -> can x <> 0 -> possibilities x = digits_of (can x).
Proof.
  intros [_ Hx] Hne. rewrite possibilities_mask.
  pose proof (u16_forall _ possibilities_check (can x) Hx) as H.
  cbn beta in H. apply orb_true_iff in H as [H|H]; [lia|].
  apply Zlist_eqb_eq. exact H.
Qed.

(** C4 fails on a cell without candidates: the first [Next] answers true
    whatever the mask, and [Value] then reads 17 off the mask 0, so the
    loop over [Possibilities] sees the one value 17 where no bit is set. *)
Theorem Possibilities_empty_mask (v : Z) :
  fst (cell.Next (Possibilities (New v))) = true /\
  Value_it (snd (cell.Next (Possibilities (New v)))) = 17 /\
  possibilities (New v) = [17] /\
  digits_of (can (New v)) = [].
Proof.
  split; [reflexivity|]. split; [reflexivity|].
  split; [rewrite possibilities_mask|]; vm_compute; reflexivity.
Qed.

(** ** Claims about [try] *)

Lemma try_candidates_first_success solve_rec b depth maxDepth maxWidth c vs rest :
  first_success solve_rec b (wrap_int (depth + 1)) maxDepth maxWidth
    (map (fun v => (c, v)) vs ++ rest) =
  match try_candidates solve_rec b depth maxDepth maxWidth c vs with
  | None => None
  | Some (Some bb) => Some (true, bb)
  | Some None =>
      first_success solve_rec b (wrap_int (depth + 1)) maxDepth maxWidth rest
  end.
Proof.
  induction vs as [|v vs IH]; cbn [map app first_success try_candidates];
    [reflexivity|].
  destruct (solve_rec (fill b c v) (wrap_int (depth + 1)) maxDepth maxWidth)
    as [[[] bb]|]; [reflexivity|exact IH|reflexivity].
Qed.

Lemma try_queue_first_success solve_rec b depth maxDepth maxWidth fuel
    (q : cqueue.Queue) :
  wf_board b -> Forall (entry_ok b maxWidth) q -> cqueue.Len q <= max_int ->
  (length q <= fuel)%nat ->
  try_queue solve_rec b depth maxDepth maxWidth fuel q =
  first_success solve_rec b (wrap_int (depth + 1)) maxDepth maxWidth
    (hypotheses b (pop_all fuel q)).
Proof.
  intros Hb. revert q. induction fuel as [|fuel IH]; intros q Hq Hmax Hfuel;
    cbn [try_queue pop_all].
  - destruct q; [reflexivity|cbn [length] in Hfuel; lia].
  - destruct (cqueue.Len q >? 0) eqn:Hlen; [|reflexivity].
    apply Len_pos_nonempty in Hlen.
    destruct (heap.Pop q) as [x q'] eqn:Hpop.
    pose proof (heap_Pop_perm _ _ _ Hlen Hmax Hpop) as Hperm. clear Hpop.
    assert (Hlen' : length q = S (length q')) by (rewrite <- Hperm; reflexivity).
    rewrite <- Hperm in Hq. apply Forall_cons in Hq as [Hx Hq'].
    unfold hypotheses. cbn [flat_map]. fold (hypotheses b (pop_all fuel q')).
    rewrite try_candidates_first_success.
    rewrite (possibilities_set_bits (at_ b (cqueue.Coord x))).
    + rewrite <- IH; [reflexivity|assumption|unfold cqueue.Len in *; lia|lia].
    + apply at_wf; [assumption|]. destruct Hx as [Hx _]. exact Hx.
    + eapply entry_ok_can. exact Hx.
Qed.

Lemma try_with_ext rec1 rec2 b depth maxDepth maxWidth :
  wf_board b ->
  (forall bb, rec1 bb (wrap_int (depth + 1)) maxDepth maxWidth =
              rec2 bb (wrap_int (depth + 1)) maxDepth maxWidth) ->
  try_with rec1 b depth maxDepth maxWidth = try_with rec2 b depth maxDepth maxWidth.
Proof.
  intros Hb Hext. unfold try_with.
  pose proof (tries_Len b maxWidth) as HL.
  rewrite !try_queue_first_success;
    try (apply tries_ok || assumption || (unfold max_int; lia) || lia).
  generalize (hypotheses b (pop_all (length (tries b maxWidth)) (tries b maxWidth))).
  intros hyps. induction hyps as [|[c v] hyps IH]; cbn [first_success]; [reflexivity|].
  rewrite Hext, IH. reflexivity.
Qed.

(** [solve], with the call of [try] as a call of [try_]. *)
Lemma solve_unfold b depth maxDepth maxWidth :
  wf_board b -> min_int <= depth -> depth < maxDepth <= max_int ->
  solve b depth maxDepth maxWidth =
  match propagate b with
  | None => None
  | Some b1 =>
      if solved b1 then Some (true, b1)
      else if contradicts b1 then Some (false, b1)
      else try_ b1 depth maxDepth maxWidth
  end.
Proof.
  intros Hb Hmin Hd. unfold solve at 1. cbn [solve_fuel].
  destruct (Z.geb_spec depth maxDepth); [lia|].
  destruct (propagate b) as [b1|] eqn:Hp; [|reflexivity].
  destruct (solved b1); [reflexivity|]. destruct (contradicts b1); [reflexivity|].
  unfold try_. apply try_with_ext.
  - unfold propagate in Hp.
    destruct (propagate_fuel_spec (fun _ => True) ltac:(trivial) _ _ _ Hp Hb I)
      as (H1 & _). exact H1.
  - intros bb. unfold solve.
    rewrite wrap_int_small by (unfold min_int, max_int in *; lia).
    replace (S (Z.to_nat (maxDepth - (depth + 1)))) with (Z.to_nat (maxDepth - depth))
      by lia.
    reflexivity.
Qed.

Lemma entries_elem b maxWidth e :
  e ∈ entries b maxWidth <-> entry_ok b maxWidth e.
Proof.
  split.
  - intros He. pose proof (entries_ok b maxWidth) as Hall.
    rewrite Forall_forall in Hall. apply Hall. exact He.
  - intros (Hc & Hp & Hr). unfold entries. apply list_elem_of_omap.
    exists (cqueue.Coord e). split; [apply valid_elements_All; exact Hc|].
    cbn zeta. rewrite <- Hp.
    destruct (Z.ltb_spec 0 (cqueue.Count e)); [|lia].
    destruct (Z.leb_spec (cqueue.Count e) maxWidth); [|lia].
    cbn [andb]. destruct e. reflexivity.
Qed.

Lemma NoDup_elements_All : NoDup (elements All).
Proof. by_compute. Qed.

Lemma entries_NoDup b maxWidth : NoDup (map cqueue.Coord (entries b maxWidth)).
Proof.
  unfold entries. pose proof NoDup_elements_All as Hnd.
  induction (elements All) as [|c l IH]; cbn [omap list_omap map]; [constructor|].
  apply NoDup_cons in Hnd as [Hc Hl].
  destruct ((0 <? PossibilityCount (at_ b c)) &&
            (PossibilityCount (at_ b c) <=? maxWidth)); [|apply IH; exact Hl].
  cbn [map cqueue.Coord]. apply NoDup_cons. split; [|apply IH; exact Hl].
  intros Hin. apply list_elem_of_fmap in Hin as (e & He & Hin).
  apply list_elem_of_omap in Hin as (c' & Hc' & Hf).
  destruct ((0 <? PossibilityCount (at_ b c')) &&
            (PossibilityCount (at_ b c') <=? maxWidth)); [|discriminate Hf].
  apply Some_inj in Hf. subst e. cbn [cqueue.Coord] in He. subst c'. contradiction.
Qed.

(** C5. [try_] pops the queue of [tries] until it is empty: the entries
    that come out are those of the valid cells with 1 to [maxWidth]
    candidates, each cell once, in ascending order of their counts, so
    that every pop hands out a cell of minimal count; and [try_] is
    [first_success] over the candidate digits, ascending, of these cells
    in this order: each hypothesis is filled into a clone and handed to
    [solve (depth + 1) maxDepth maxWidth], the first success leaves the
    clone in place of the board and answers true, and the answer is false,
    with the board as it was, only when every hypothesis has failed. *)
Theorem try_branching (b : board) (depth maxDepth maxWidth : Z) :
  wf_board b -> min_int <= depth < max_int ->
  let order := pop_all (length (tries b maxWidth)) (tries b maxWidth) in
  (forall e, e ∈ order <-> entry_ok b maxWidth e) /\
  NoDup (map cqueue.Coord order) /\
  StronglySorted by_count order /\
  try_ b depth maxDepth maxWidth =
    first_success solve b (depth + 1) maxDepth maxWidth (hypotheses b order).
Proof.
  intros Hb Hd order.
  pose proof (tries_Len b maxWidth) as HL.
  destruct (pop_all_spec (length (tries b maxWidth)) (tries b maxWidth))
    as [Hperm Hsorted].
  { apply tries_ordered. }
  { unfold max_int. lia. }
  { lia. }
  assert (Hperm' : order ≡ₚ entries b maxWidth).
  { subst order. rewrite Hperm. apply tries_perm. }
  split; [|split; [|split]].
  - intros e. rewrite Hperm'. apply entries_elem.
  - rewrite Hperm'. apply entries_NoDup.
  - exact Hsorted.
  - unfold try_, try_with.
    rewrite try_queue_first_success;
      [|assumption|apply tries_ok|unfold max_int; lia|lia].
    rewrite wrap_int_small by lia. reflexivity.
Qed.

(** ** The puzzle of [main] *)

Lemma main_board_wf : wf_board main_board.
Proof. by_compute. Qed.

(** The fourth attempt of [iterate], with [maxDepth] 6, solves the puzzle. *)
Lemma iterate_main_board : iterate 4 main_board = Some solution_board.
Proof. vm_cast_no_check (eq_refl (Some solution_board)). Qed.

Lemma solution_board_groups :
  Forall (fun g => Forall (fun d => occurrences d (group_values solution_board g) = 1%nat)
                          digits)
         (elements groups_iter).
Proof. by_compute. Qed.

Lemma solution_board_givens :
  Forall (fun cv => cell.Value (at_ solution_board cv.1) = cv.2) givens.
Proof. by_compute. Qed.

(** C9. From the board of [main], all cells all-possible and then the 21
    givens filled in, [iterate] terminates: its fourth attempt succeeds.
    The board it leaves is solved and free of contradiction, carries the
    givens, and has every digit from 1 to 9 exactly once in every row,
    column and box. *)
Theorem worlds_hardest_solved :
  main_board = fold_left (fun b '(c, v) => fill b c v) givens (allPossible zero_board) /\
  iterate 4 main_board = Some solution_board /\
  solved solution_board = true /\
  contradicts solution_board = false /\
  (forall c v, (c, v) ∈ givens -> cell.Value (at_ solution_board c) = v) /\
  (forall g, g ∈ elements groups_iter ->
     forall d, 1 <= d <= 9 -> occurrences d (group_values solution_board g) = 1%nat).
Proof.
  split; [reflexivity|]. split; [apply iterate_main_board|].
  split; [vm_compute; reflexivity|]. split; [vm_compute; reflexivity|]. split.
  - intros c v Hin. pose proof solution_board_givens as H.
    rewrite Forall_forall in H. apply (H (c, v) Hin).
  - intros g Hg d Hd. pose proof solution_board_groups as H.
    rewrite Forall_forall in H. specialize (H g Hg).
    rewrite Forall_forall in H. apply H.
    unfold digits. digit_cases d; apply list_elem_of_In; simpl; auto 12.
Qed.

(** ** The claims on concrete boards *)

Lemma valid_0_0 : valid (mkCoord 0 0).
Proof. unfold valid. cbn [X Y]. lia. Qed.

Lemma fill_invariant_witness :
  at_ (fill initial_board (mkCoord 0 0) 8) (mkCoord 0 0)
    = {| cell.Value := 8; can := 0 |} /\
  forall d, valid d -> d <> mkCoord 0 0 -> peer (mkCoord 0 0) d ->
    IsPossible (at_ (fill initial_board (mkCoord 0 0) 8) d) 8 = false /\
    Z.testbit (can (at_ (fill initial_board (mkCoord 0 0) 8) d)) (8 - 1) = false.
Proof.
  apply (fill_invariant initial_board (mkCoord 0 0) 8).
  - apply initial_board_wf.
  - apply valid_0_0.
  - lia.
Defined.

Lemma fill_frame_witness :
  (~ peer (mkCoord 0 0) (mkCoord 1 0) ->
     at_ (fill initial_board (mkCoord 0 0) 8) (mkCoord 1 0)
       = at_ initial_board (mkCoord 1 0)) /\
  (peer (mkCoord 0 0) (mkCoord 1 0) ->
     cell.Value (at_ (fill initial_board (mkCoord 0 0) 8) (mkCoord 1 0))
       = cell.Value (at_ initial_board (mkCoord 1 0)) /\
     forall k, 0 <= k ->
       Z.testbit (can (at_ (fill initial_board (mkCoord 0 0) 8) (mkCoord 1 0))) k =
         Z.testbit (can (at_ initial_board (mkCoord 1 0))) k && negb (k =? 8 - 1)).
Proof.
  apply (fill_frame initial_board (mkCoord 0 0) 8).
  - apply initial_board_wf.
  - apply valid_0_0.
  - lia.
  - unfold valid. cbn [X Y]. lia.
  - intros H. discriminate H.
Defined.

Lemma propagation_terminates_witness :
  (forall b', singlePossible row_board = (true, b') ->
     wf_board b' /\ candidate_bits b' < candidate_bits row_board /\
     filled row_board b') /\
  (forall b', onlyPlace row_board = (true, b') ->
     wf_board b' /\ candidate_bits b' < candidate_bits row_board /\
     filled row_board b') /\
  exists b', propagate row_board = Some b' /\
             singlePossible b' = (false, b') /\ onlyPlace b' = (false, b').
Proof. apply (propagation_terminates row_board). apply row_board_wf. Defined.

Lemma solve_failure_board_witness :
  (1 <= 0 /\ row_board_after = row_board) \/
  (0 < 1 /\ propagate row_board = Some row_board_after /\
   propagate row_board_after = Some row_board_after).
Proof.
  apply (solve_failure_board row_board 0 1 2 row_board_after).
  - apply row_board_wf.
  - apply row_board_solve.
Defined.

Lemma try_branching_witness :
  let order := pop_all (length (tries main_board 2)) (tries main_board 2) in
  (forall e, e ∈ order <-> entry_ok main_board 2 e) /\
  NoDup (map cqueue.Coord order) /\
  StronglySorted by_count order /\
  try_ main_board 0 3 2 =
    first_success solve main_board (0 + 1) 3 2 (hypotheses main_board order).
Proof.
  apply (try_branching main_board 0 3 2).
  - apply main_board_wf.
  - unfold min_int, max_int. lia.
Defined.

Lemma zero_board_wf : wf_board zero_board.
Proof. by_compute. Qed.

Lemma contradiction_detected_witness :
  (contradicts zero_board = true <->
   exists c, valid c /\ dead_cell (at_ zero_board c)) /\
  ((exists c, valid c /\ dead_cell (at_ zero_board c)) ->
   solved zero_board = false /\
   forall depth maxDepth maxWidth,
     exists b', solve zero_board depth maxDepth maxWidth = Some (false, b')).
Proof. apply (contradiction_detected zero_board). apply zero_board_wf. Defined.

Lemma reachable_cell_invariant_witness :
  Forall cell_invariant (fill initial_board (mkCoord 0 0) 8).
Proof.
  apply (reachable_cell_invariant (fill initial_board (mkCoord 0 0) 8)).
  apply reach_fill.
  - apply reach_initial.
  - apply valid_0_0.
  - lia.
Defined.

(** * Further properties of the code *)

(** ** Package cell *)

(** Dropping a digit twice is dropping it once, and the order in which two
    digits are dropped does not matter. *)
Theorem Drop_idempotent_commutative (x : Cell) (v w : Z) :
  Drop (Drop x v) v = Drop x v /\ Drop (Drop x v) w = Drop (Drop x w) v.
Proof.
  split; [apply Drop_idem|].
  unfold Drop. cbn [cell.Value can]. f_equal.
  rewrite <- !Z.land_assoc. f_equal. apply Z.land_comm.
Qed.

Lemma shl_u16_out s : 16 <= s -> shl_u16 1 s = 0.
Proof.
  intros Hs. unfold shl_u16, wrap_u16. rewrite Z.shiftl_1_l.
  replace s with (16 + (s - 16)) by lia. rewrite Z.pow_add_r by lia.
  change (2 ^ 16) with 65536. rewrite Z.mul_comm. apply Z.mod_mul. lia.
Qed.

Lemma shl_u16_in s : 0 <= s < 16 -> shl_u16 1 s = 2 ^ s.
Proof.
  intros Hs. unfold shl_u16, wrap_u16. rewrite Z.shiftl_1_l.
  apply Z.mod_small. split; [apply Z.pow_nonneg; lia|].
  change 65536 with (2 ^ 16). apply Z.pow_lt_mono_r; lia.
Qed.

Lemma land_u16_all x : 0 <= x < 65536 -> Z.land x 65535 = x.
Proof.
  intros Hx. change 65535 with (Z.ones 16).
  rewrite Z.land_ones by lia. apply Z.mod_small. exact Hx.
Qed.

(** The digit a mask bit stands for is [v] with [1 <= v <= 16]; for any
    other value of the uint8 [v], 0 included, the shift count [v - 1] is 16
    or more after the wrap-around, the shifted bit is lost, and [Drop]
    leaves the cell as it is while [IsPossible] answers false. *)
Theorem Drop_IsPossible_out_of_range (x : Cell) (v : Z) :
  wf_cell x -> v = 0 \/ 17 <= v <= 255 ->
  Drop x v = x /\ IsPossible x v = false.
Proof.
  intros [_ Hx] Hv.
  assert (Hs : shl_u16 1 (wrap_u8 (v - 1)) = 0).
  { apply shl_u16_out. unfold wrap_u8. destruct Hv as [->|Hv].
    - vm_compute. discriminate.
    - rewrite Z.mod_small; lia. }
  unfold Drop, IsPossible. rewrite Hs. split.
  - change (not_u16 0) with 65535. rewrite land_u16_all by exact Hx.
    destruct x. reflexivity.
  - rewrite Z.land_0_r. reflexivity.
Qed.

Lemma Drop_IsPossible_out_of_range_witness :
  Drop (mkCell 0 511) 0 = mkCell 0 511 /\ IsPossible (mkCell 0 511) 0 = false.
Proof.
  apply (Drop_IsPossible_out_of_range (mkCell 0 511) 0).
  - unfold wf_cell. cbn [cell.Value can]. lia.
  - left. reflexivity.
Defined.

Lemma land_pow2 x k :
  0 <= k -> Z.land x (2 ^ k) = if Z.testbit x k then 2 ^ k else 0.
Proof.
  intros Hk. apply Z.bits_inj'. intros n Hn.
  rewrite Z.land_spec, Z.pow2_bits_eqb by lia.
  destruct (Z.eqb_spec k n) as [->|Hne].
  - destruct (Z.testbit x n); cbn [andb].
    + rewrite Z.pow2_bits_true by lia. reflexivity.
    + rewrite Z.bits_0. reflexivity.
  - rewrite andb_false_r. destruct (Z.testbit x k).
    + rewrite Z.pow2_bits_false by lia. reflexivity.
    + rewrite Z.bits_0. reflexivity.
Qed.

(** [IsPossible] reads bit [v - 1] of the mask. *)
Theorem IsPossible_testbit (x : Cell) (v : Z) :
  1 <= v <= 16 -> IsPossible x v = Z.testbit (can x) (v - 1).
Proof.
  intros Hv. unfold IsPossible, none, wrap_u8.
  rewrite (Z.mod_small (v - 1)) by lia.
  rewrite shl_u16_in by lia. rewrite land_pow2 by lia.
  destruct (Z.testbit (can x) (v - 1)); [|reflexivity].
  assert (0 < 2 ^ (v - 1)) by (apply Z.pow_pos_nonneg; lia).
  destruct (Z.eqb_spec (2 ^ (v - 1)) 0); [lia|reflexivity].
Qed.

Lemma IsPossible_testbit_witness :
  IsPossible (mkCell 0 5) 3 = Z.testbit (can (mkCell 0 5)) (3 - 1).
Proof. apply (IsPossible_testbit (mkCell 0 5) 3). lia. Defined.
